(** * Marching-cubes case table generator: a shallow embedding

    The script [marching_cubes_gen.py] derives the 256 marching-cubes cases
    from 15 base cases (plus four hand-written inverse cases) by brute-force
    application of cube symmetries.  This file embeds the script's data and
    functions and proves properties of the table it builds.

    Conventions of the embedding:
    - a Python [int] used as a corner bit-pattern is a [Z];
    - corner indices, edge indices and list positions are [nat];
    - a vertex permutation is the Python list itself, a [list nat];
      indexing [op[v]] is the partial lookup [op !! v];
    - a [frozenset] of corners is a [gset nat], a [dict] keyed by frozensets
      or by bit-patterns is a [gmap]; the insertion-ordered dict
      [BASE_CASES], which the script iterates over, is an association list;
    - a raised exception ([KeyError], [IndexError], [ValueError],
      [AssertionError]) is [None] in the option monad. *)

From stdpp Require Import gmap list sorting.
From Stdlib Require Import ZArith.

Local Open Scope Z_scope.

(** ** Cube geometry *)

(** Corner coordinates; each Python 3-tuple is the list of its coordinates. *)
Definition VERTICES : list (list Z) :=
  [ [0; 0; 0];
    [1; 0; 0];
    [1; 1; 0];
    [0; 1; 0];
    [0; 0; 1];
    [1; 0; 1];
    [1; 1; 1];
    [0; 1; 1] ].

Definition EDGES : list (nat * nat) :=
  [ (0, 1);
    (1, 2);
    (2, 3);
    (3, 0);
    (4, 5);
    (5, 6);
    (6, 7);
    (7, 4);
    (0, 4);
    (1, 5);
    (2, 6);
    (3, 7) ]%nat.

(** [frozenset([v1, v2])] *)
Definition frozenset (vs : list nat) : gset nat := list_to_set vs.

(** [enumerate(l)] *)
Definition enumerate {A} (l : list A) : list (nat * A) := imap (λ i x, (i, x)) l.

(** The loop [for e, (v1, v2) in enumerate(EDGES): EDGES_BY_VERTSET[...] = e]
    started from the empty dict. *)
Definition EDGES_BY_VERTSET : gmap (gset nat) nat :=
  foldl (λ d '(e, (v1, v2)), <[frozenset [v1; v2] := e]> d) ∅ (enumerate EDGES).

(** The lookup [EDGES_BY_VERTSET[frozenset([a, b])]]; [None] is [KeyError]. *)
Definition edge_of (a b : nat) : option nat := EDGES_BY_VERTSET !! frozenset [a; b].

(** ** Base cases *)

(** A face is a triple of edge indices, a case entry a sequence of faces.
    Tuples and lists are both modelled as lists. *)
Definition BASE_CASES_literal : list (Z * list (list nat)) :=
  [ (0%Z,   []);
    (1%Z,   [[8; 0; 3]]);
    (3%Z,   [[8; 1; 3]; [8; 9; 1]]);
    (5%Z,   [[8; 0; 3]; [1; 10; 2]]);
    (65%Z,  [[8; 0; 3]; [10; 6; 5]]);
    (50%Z,  [[8; 7; 0]; [0; 7; 1]; [1; 7; 5]]);
    (67%Z,  [[8; 1; 3]; [8; 9; 1]; [10; 6; 5]]);
    (74%Z,  [[3; 2; 11]; [0; 9; 1]; [10; 6; 5]]);
    (51%Z,  [[7; 5; 3]; [3; 5; 1]]);
    (177%Z, [[11; 6; 3]; [3; 6; 0]; [0; 6; 5]; [0; 5; 9]]);
    (105%Z, [[11; 8; 2]; [8; 2; 0]; [6; 10; 4]; [4; 10; 9]]);
    (113%Z, [[3; 7; 0]; [0; 7; 10]; [7; 6; 10]; [0; 10; 9]]);
    (58%Z,  [[3; 2; 11]; [8; 7; 0]; [0; 7; 1]; [1; 7; 5]]);
    (165%Z, [[8; 0; 3]; [4; 5; 9]; [10; 2; 1]; [11; 6; 7]]);
    (178%Z, [[8; 11; 0]; [0; 11; 5]; [5; 11; 6]; [0; 5; 1]]) ]%nat.

Definition INVERSE_CASES : list (Z * list (list nat)) :=
  [ ((255 - 5)%Z,  [[3; 2; 8]; [8; 2; 10]; [8; 10; 1]; [8; 1; 0]]);
    ((255 - 67)%Z, [[6; 8; 3]; [6; 9; 8]; [6; 5; 9]; [6; 3; 1]; [6; 10; 1]]);
    ((255 - 74)%Z, [[3; 11; 0]; [0; 11; 6]; [0; 6; 9]; [9; 6; 5]; [1; 10; 2]]);
    ((255 - 58)%Z, [[8; 0; 3]; [2; 7; 11]; [7; 2; 1]; [7; 1; 5]]) ]%nat.

(** [d[k] = v] on an insertion-ordered dict: an existing key keeps its
    position, a new key goes last. *)
Fixpoint dict_setitem {V} (k : Z) (v : V) (d : list (Z * V)) : list (Z * V) :=
  match d with
  | [] => [(k, v)]
  | (k', v') :: d' => if decide (k' = k) then (k, v) :: d' else (k', v') :: dict_setitem k v d'
  end.

(** [for bits, faces in INVERSE_CASES.items(): BASE_CASES[bits] = faces] *)
Definition BASE_CASES : list (Z * list (list nat)) :=
  foldl (λ d '(bits, faces), dict_setitem bits faces d) BASE_CASES_literal INVERSE_CASES.

(** ** Vertex permutations *)

Definition ROTATE_1 : list nat := [1; 2; 3; 0; 5; 6; 7; 4]%nat.
Definition ROTATE_2 : list nat := [3; 2; 6; 7; 0; 1; 5; 4]%nat.
Definition ROTATE_3 : list nat := [1; 5; 6; 2; 0; 4; 7; 3]%nat.
Definition REFLECT  : list nat := [1; 0; 3; 2; 5; 4; 7; 6]%nat.

Definition identity : list nat := [0; 1; 2; 3; 4; 5; 6; 7]%nat.

(** [range(n)] *)
Definition range (n : nat) : list nat := seq 0 n.

Definition bits_to_verts (n : Z) : list nat :=
  filter (λ v, Z.land (2 ^ Z.of_nat v) n > 0) (range 8).

(** [sum(2**v for v in vs)]: Python's [sum] adds from the left, from 0. *)
Definition verts_to_bits (vs : list nat) : Z :=
  foldl (λ acc v, acc + 2 ^ Z.of_nat v) 0 vs.

Definition bits_apply (op : list nat) (n : Z) : option Z :=
  vs ← mapM (λ v, op !! v) (bits_to_verts n);
  Some (verts_to_bits vs).

Definition edge_apply (op : list nat) (edge : nat) : option nat :=
  '(v1, v2) ← EDGES !! edge;
  w1 ← op !! v1;
  w2 ← op !! v2;
  EDGES_BY_VERTSET !! frozenset [w1; w2].

Definition face_apply (op : list nat) (face : list nat) (flip : bool) : option (list nat) :=
  edges ← mapM (edge_apply op) face;
  Some (if flip then reverse edges else edges).

Definition faces_apply (op : list nat) (faces : list (list nat)) (flip : bool)
  : option (list (list nat)) :=
  mapM (λ face, face_apply op face flip) faces.

(** The two-argument branch of [compose]: [[op2[op1[v]] for v in range(8)]]. *)
Definition compose2 (op1 op2 : list nat) : option (list nat) :=
  mapM (λ v, w ← op1 !! v; op2 !! w) (range 8).

(** The variadic [compose], by the number of arguments as in the script. *)
Fixpoint compose (ops : list (list nat)) : option (list nat) :=
  match ops with
  | [] => Some [0; 1; 2; 3; 4; 5; 6; 7]%nat
  | [op] => Some op
  | [op1; op2] => compose2 op1 op2
  | op1 :: rest => r ← compose rest; compose2 op1 r
  end.

(** [pow(op, n)] composes the list [[op] * n], that is [n] copies of [op]. *)
Definition pow (op : list nat) (n : nat) : option (list nat) :=
  compose (replicate n op).

(** ** The closure loop *)

(** A [for] loop whose body may raise: the state is threaded through the
    iterations and the first exception ends the loop. *)
Fixpoint for_each {A S} (l : list A) (body : A → S → option S) (s : S) : option S :=
  match l with
  | [] => Some s
  | x :: l' => s' ← body x s; for_each l' body s'
  end.

(** The operation built inside the five nested loops. *)
Definition make_op (r1 r2 r3 refl : nat) : option (list nat) :=
  p1 ← pow ROTATE_1 r1;
  p2 ← pow ROTATE_2 r2;
  p3 ← pow ROTATE_3 r3;
  p4 ← pow REFLECT refl;
  compose [p1; p2; p3; p4].

(** Body of the innermost loop, over [BASE_CASES.items()]. *)
Definition insert_case (op : list nat) (invert flip : bool)
    (entry : Z * list (list nat)) (cases : gmap Z (list (list nat)))
  : option (gmap Z (list (list nat))) :=
  let '(bits, faces) := entry in
  new_bits ← bits_apply op bits;
  let new_bits := if invert then 255 - new_bits else new_bits in
  match cases !! new_bits with
  | Some _ => Some cases
  | None =>
      new_faces ← faces_apply op faces flip;
      Some (<[new_bits := new_faces]> cases)
  end.

(** Body of the loop over [refl]. *)
Definition closure_body (invert : bool) (r1 r2 r3 refl : nat)
    (cases : gmap Z (list (list nat))) : option (gmap Z (list (list nat))) :=
  op ← make_op r1 r2 r3 refl;
  let flip := xorb invert (bool_decide (refl = 1%nat)) in
  for_each BASE_CASES (insert_case op invert flip) cases.

(** The whole loop nest, run on the empty dict. *)
Definition build_cases : option (gmap Z (list (list nat))) :=
  for_each [false; true] (λ invert,
    for_each (range 4) (λ r1,
      for_each (range 4) (λ r2,
        for_each (range 4) (λ r3,
          for_each (range 2) (λ refl,
            closure_body invert r1 r2 r3 refl))))) ∅.

(** The module-level dict [cases] once the loop nest has run. *)
Definition cases : option (gmap Z (list (list nat))) := build_cases.

(** [cases[bits]]: fails if the loop nest raised or the key is absent. *)
Definition cases_get (bits : Z) : option (list (list nat)) :=
  tbl ← cases; tbl !! bits.

(** The list the script prints: [[cases[i] for i in range(256)]]. *)
Definition output : option (list (list (list nat))) :=
  mapM (λ i, cases_get (Z.of_nat i)) (range 256).

(** ** The two validators *)

(** [sum(v in verts for v in EDGES[edge])]: how many ends of the edge are
    in [verts]. *)
Definition solid_ends (verts : gset nat) (ends : nat * nat) : nat :=
  length (filter (λ v, v ∈ verts) [ends.1; ends.2]).

(** Body of [test1] for one bit-pattern. *)
Definition test1_bits (bits : Z) : option () :=
  let verts : gset nat := list_to_set (bits_to_verts bits) in
  faces ← cases_get bits;
  let all_edges : gset nat := list_to_set (concat faces) in
  for_each (elements all_edges) (λ edge _,
    ends ← EDGES !! edge;
    if decide (solid_ends verts ends = 1%nat) then Some () else None) ().

Definition test1 : option () :=
  for_each (range 256) (λ bits _, test1_bits (Z.of_nat bits)) ().

(** [Counter(l)] for a list of frozensets. *)
Definition Counter (l : list (gset nat)) : gmap (gset nat) nat :=
  foldl (λ c k, <[k := S (default 0%nat (c !! k))]> c) ∅ l.

(** The three sides of one face: [frozenset([face[i], face[(i+1) % 3]])]
    for [i] in [range(3)]. *)
Definition face_pairs (face : list nat) : option (list (gset nat)) :=
  mapM (λ i, a ← face !! i; b ← face !! ((i + 1) mod 3)%nat; Some (frozenset [a; b]))
       (range 3).

Definition edge_pairs (faces : list (list nat)) : option (list (gset nat)) :=
  sides ← mapM face_pairs faces;
  Some (concat sides).

(** Midpoint of an edge, scaled by 2. *)
Definition d_midpoint (edge : nat) : option (list Z) :=
  '(v0, v1) ← EDGES !! edge;
  v0_pos ← VERTICES !! v0;
  v1_pos ← VERTICES !! v1;
  Some (zip_with Z.add v0_pos v1_pos).

(** Square of the distance between two positions. *)
Definition length_sq (pos1 pos2 : list Z) : Z :=
  foldl Z.add 0 (zip_with (λ x y, (x - y) ^ 2) pos1 pos2).

(** Body of the loop over [edge_counts.items()].  The unpacking
    [edge1, edge2 = edge_pair] raises unless the set has two elements. *)
Definition check_pair (edge_pair : gset nat) (count : nat) : option () :=
  if decide (count = 2%nat) then Some () else
  match elements edge_pair with
  | [edge1; edge2] =>
      m1 ← d_midpoint edge1;
      m2 ← d_midpoint edge2;
      let l2 := length_sq m1 m2 in
      if decide (l2 = 2 ∨ l2 = 4) then Some () else None
  | _ => None
  end.

Definition test2_bits (bits : Z) : option () :=
  faces ← cases_get bits;
  pairs ← edge_pairs faces;
  for_each (map_to_list (Counter pairs)) (λ item _,
    let '(edge_pair, count) := item in check_pair edge_pair count) ().

Definition test2 : option () :=
  for_each (range 256) (λ bits _, test2_bits (Z.of_nat bits)) ().

(** * Vocabulary of the properties

    The definitions below are not in the script; they name what the
    properties talk about. *)

(** The dict [cases], as a total value. *)
Definition case_table : gmap Z (list (list nat)) := default ∅ cases.

(** The pass over the operations with a given [invert] flag. *)
Definition closure_pass (invert : bool) :
    gmap Z (list (list nat)) → option (gmap Z (list (list nat))) :=
  for_each (range 4) (λ r1,
    for_each (range 4) (λ r2,
      for_each (range 4) (λ r3,
        for_each (range 2) (λ refl,
          closure_body invert r1 r2 r3 refl)))).

(** The triangle list written in [INVERSE_CASES] for 255 - 0b00000101. *)
Definition inverse_case_250 : list (list nat) :=
  [[3; 2; 8]; [8; 2; 10]; [8; 10; 1]; [8; 1; 0]]%nat.

(** What an inverted operation would store at [target] from one entry of
    [BASE_CASES], if it was allowed to: [Some] of the derived triangle list
    when the entry lands on [target], [None] otherwise. *)
Definition derived_by_inversion (target : Z) (r1 r2 r3 refl : nat)
    (entry : Z * list (list nat)) : option (list (list nat)) :=
  op ← make_op r1 r2 r3 refl;
  new_bits ← bits_apply op entry.1;
  if decide (255 - new_bits = target)
  then faces_apply op entry.2 (xorb true (bool_decide (refl = 1%nat)))
  else None.

(** How often a side occurs among the sides of an entry. *)
Definition occurrences (pair : gset nat) (pairs : list (gset nat)) : nat :=
  length (filter (λ q, q = pair) pairs).

(** The geometric test of [test2] on one side: the side joins two distinct
    cube edges whose doubled midpoints are at squared distance 2 or 4. *)
Definition on_boundary (pair : gset nat) : Prop :=
  ∃ edge1 edge2 m1 m2,
    pair = {[edge1; edge2]} ∧ edge1 ≠ edge2
    ∧ d_midpoint edge1 = Some m1 ∧ d_midpoint edge2 = Some m2
    ∧ (length_sq m1 m2 = 2 ∨ length_sq m1 m2 = 4).

(** The same test as a boolean, computed the way [check_pair] does it. *)
Definition on_boundary_b (pair : gset nat) : bool :=
  match elements pair with
  | [edge1; edge2] =>
      match d_midpoint edge1, d_midpoint edge2 with
      | Some m1, Some m2 => bool_decide (length_sq m1 m2 = 2 ∨ length_sq m1 m2 = 4)
      | _, _ => false
      end
  | _ => false
  end.

(** Two corners are adjacent when one of the twelve edges joins them, in
    either order. *)
Definition adjacent (a b : nat) : Prop :=
  ∃ e, EDGES !! e = Some (a, b) ∨ EDGES !! e = Some (b, a).

(** The key under which the building loop files an edge. *)
Definition vertset (ends : nat * nat) : gset nat := frozenset [ends.1; ends.2].

(** The building loop of [EDGES_BY_VERTSET], for any list of edges. *)
Definition by_vertset (edges : list (nat * nat)) : gmap (gset nat) nat :=
  foldl (λ d '(e, (v1, v2)), <[frozenset [v1; v2] := e]> d) ∅ (enumerate edges).

(** A bijection on the corner indices 0..7, as the script writes it: a
    list of length 8 of distinct indices below 8. *)
Definition is_perm (op : list nat) : Prop :=
  length op = 8%nat ∧ NoDup op ∧ Forall (λ w, (w < 8)%nat) op.

(** Being such a list is decidable. *)
#[global] Instance is_perm_dec (op : list nat) : Decision (is_perm op).
Proof. unfold is_perm. apply _. Defined.

(** [op[v]] as a total function, for use where the index is in range. *)
Definition image (op : list nat) (v : nat) : nat := default 0%nat (op !! v).

(** The permutation maps the two ends of each of the twelve edges to two
    corners that the edge lookup knows. *)
Definition edge_preserving (op : list nat) : Prop :=
  Forall (λ ends : nat * nat, is_Some (edge_of (image op ends.1) (image op ends.2))) EDGES.

(** The permutations the generation is about. *)
Definition symmetry (op : list nat) : Prop := is_perm op ∧ edge_preserving op.

(** Being a symmetry is decidable. *)
#[global] Instance symmetry_dec (op : list nat) : Decision (symmetry op).
Proof. unfold symmetry, edge_preserving. apply _. Defined.

(** How many corners are solid under a bit-pattern. *)
Definition solid_count (n : Z) : nat := length (bits_to_verts n).

(** ** Vocabulary of the further properties *)

(** A map of the corners to corners, not necessarily one to one: what the
    two-argument [compose] needs of its arguments. *)
Definition corner_map (op : list nat) : Prop :=
  length op = 8%nat ∧ Forall (λ w, (w < 8)%nat) op.

(** The corner reached from [v] by the maps of [ops], taken from left to
    right. *)
Definition follow (ops : list (list nat)) (v : nat) : nat :=
  foldl (λ x op, image op x) v ops.

(** [edge_apply] as a total function, for use where it does not raise. *)
Definition edge_image (op : list nat) (e : nat) : nat := default 0%nat (edge_apply op e).

(** What [face_apply] returns for a symmetry, as a total function. *)
Definition face_image (op : list nat) (flip : bool) (face : list nat) : list nat :=
  if flip then reverse (edge_image op <$> face) else edge_image op <$> face.

(** An entry of the table as the consumer expects it: at most five
    triangles, each of three distinct edge indices below 12. *)
Definition well_formed_entry (faces : list (list nat)) : Prop :=
  (length faces ≤ 5)%nat
  ∧ Forall (λ face, length face = 3%nat ∧ NoDup face ∧ Forall (λ e, (e < 12)%nat) face) faces.

(** The operations of the loop nest, in the order of the loops. *)
Definition enumerated_ops : list (list nat) :=
  r1 ← range 4; r2 ← range 4; r3 ← range 4; refl ← range 2;
  option_list (make_op r1 r2 r3 refl).

(** [value] is what the loop nest computes for [key] from some entry of
    [BASE_CASES] with some operation of the enumeration, inverted or not
    as [invert] says. *)
Definition derived_entry (invert : bool) (key : Z) (value : list (list nat)) : Prop :=
  ∃ r1 r2 r3 refl op bits faces new_bits,
    ((r1 < 4)%nat ∧ (r2 < 4)%nat ∧ (r3 < 4)%nat ∧ (refl < 2)%nat)
    ∧ (bits, faces) ∈ BASE_CASES
    ∧ make_op r1 r2 r3 refl = Some op
    ∧ bits_apply op bits = Some new_bits
    ∧ key = (if invert then 255 - new_bits else new_bits)
    ∧ faces_apply op faces (xorb invert (bool_decide (refl = 1%nat))) = Some value.

(** The dict after the non-inverted pass. *)
Definition non_inverted_table : gmap Z (list (list nat)) :=
  default ∅ (closure_pass false ∅).

(** Corner [v] lies in the face of the cube where coordinate [axis] is
    [side]. *)
Definition in_face (axis : nat) (side : Z) (v : nat) : Prop :=
  (pos ← VERTICES !! v; pos !! axis) = Some side.

#[global] Instance in_face_dec (axis : nat) (side : Z) (v : nat) :
  Decision (in_face axis side v).
Proof. unfold in_face. apply _. Defined.

(** The two ends of an edge. *)
Definition edge_corners (edge : nat) : list nat :=
  match EDGES !! edge with
  | Some (v1, v2) => [v1; v2]
  | None => []
  end.

(** The two edges lie in a common face of the cube: on some axis, the four
    ends have the same coordinate. *)
Definition share_face (edge1 edge2 : nat) : Prop :=
  Exists (λ axis, Exists (λ side,
    Forall (in_face axis side) (edge_corners edge1 ++ edge_corners edge2)) [0; 1])
  (range 3).

#[global] Instance share_face_dec (edge1 edge2 : nat) : Decision (share_face edge1 edge2).
Proof. unfold share_face. apply _. Defined.

(** * Properties *)

(** ** Deciding by evaluation *)

(** A decidable closed proposition is proved by running its decision
    procedure. *)
Ltac by_evaluation :=
  match goal with
  | |- ?P => apply (bool_decide_eq_true_1 P); vm_compute; reflexivity
  end.

(** A property of every bit-pattern in 0..255 follows from its instances
    on [range 256]. *)
Lemma forall_patterns (P : Z → Prop) :
  Forall (λ i, P (Z.of_nat i)) (range 256) →
  ∀ p, 0 ≤ p ≤ 255 → P p.
Proof.
  intros HP p Hp. rewrite Forall_forall in HP.
  rewrite <- (Z2Nat.id p) by lia. apply HP.
  unfold range. apply elem_of_seq. lia.
Qed.

Lemma elem_of_range (n i : nat) : (i < n)%nat → i ∈ range n.
Proof. intros Hi. unfold range. apply elem_of_seq. lia. Qed.

(** A property of every operation of the loop nest follows from its
    instances on the four ranges. *)
Lemma forall_ops (P : nat → nat → nat → nat → Prop) :
  Forall (λ r1, Forall (λ r2, Forall (λ r3, Forall (λ refl,
    P r1 r2 r3 refl) (range 2)) (range 4)) (range 4)) (range 4) →
  ∀ r1 r2 r3 refl, (r1 < 4)%nat → (r2 < 4)%nat → (r3 < 4)%nat → (refl < 2)%nat →
    P r1 r2 r3 refl.
Proof.
  intros H r1 r2 r3 refl H1 H2 H3 H4.
  rewrite Forall_forall in H. specialize (H r1 (elem_of_range _ _ H1)).
  rewrite Forall_forall in H. specialize (H r2 (elem_of_range _ _ H2)).
  rewrite Forall_forall in H. specialize (H r3 (elem_of_range _ _ H3)).
  rewrite Forall_forall in H. exact (H refl (elem_of_range _ _ H4)).
Qed.

(** ** The table is complete *)

(** The loop nest raises no exception. *)
Lemma cases_is_Some : is_Some cases.
Proof. by_evaluation. Qed.

Lemma cases_case_table : cases = Some case_table.
Proof. unfold case_table. destruct cases_is_Some as [tbl ->]. reflexivity. Qed.

Lemma cases_get_case_table bits : cases_get bits = case_table !! bits.
Proof. unfold cases_get. rewrite cases_case_table. reflexivity. Qed.

(** C1: the closure loop ends without an exception, the resulting dict has
    an entry for a key exactly when the key is a bit-pattern in 0..255, the
    entries for 0 and 255 are the empty triangle list, and the emitted
    list has 256 elements. *)
Theorem cases_complete :
  ∃ tbl, cases = Some tbl
    ∧ (∀ p, is_Some (tbl !! p) ↔ 0 ≤ p ≤ 255)
    ∧ tbl !! 0 = Some []
    ∧ tbl !! 255 = Some []
    ∧ ∃ out, output = Some out ∧ length out = 256%nat.
Proof.
  exists case_table. split; [apply cases_case_table |].
  split; [| split; [| split]].
  - intros p. split.
    + intros [faces Hp]. revert p faces Hp.
      change (map_Forall (λ p _, 0 ≤ p ≤ 255) case_table). by_evaluation.
    + revert p. apply forall_patterns. by_evaluation.
  - by_evaluation.
  - by_evaluation.
  - assert (H : is_Some output) by by_evaluation.
    destruct H as [out Hout]. exists out. split; [exact Hout |].
    unfold output in Hout. apply length_mapM in Hout. rewrite <- Hout.
    reflexivity.
Qed.

(** ** Orders of the generators *)

(** [compose()] with no argument is the identity, so is [pow(op, 0)]. *)
Lemma pow_0 (op : list nat) : pow op 0 = Some identity.
Proof. reflexivity. Qed.

(** [pow(op, 1)] hands back [op] itself. *)
Lemma pow_1 (op : list nat) : pow op 1 = Some op.
Proof. reflexivity. Qed.

(** C7: the fourth power of each rotation generator and the square of the
    reflection generator are the identity permutation, and the zeroth power
    of any permutation is the identity permutation. *)
Theorem generator_orders :
  pow ROTATE_1 4 = Some identity
  ∧ pow ROTATE_2 4 = Some identity
  ∧ pow ROTATE_3 4 = Some identity
  ∧ pow REFLECT 2 = Some identity
  ∧ ∀ perm : list nat, pow perm 0 = Some identity.
Proof.
  split; [| split; [| split; [| split]]];
    [vm_compute; reflexivity .. | exact pow_0].
Qed.

(** ** Entries of the table that come straight from the base cases *)

(** C8: the entry for bit-pattern 1 is the single triangle (8, 0, 3), and
    the entry for bit-pattern 3 is the two triangles (8, 1, 3) and
    (8, 9, 1), in this order. *)
Theorem base_scenarios :
  cases_get 1 = Some [[8; 0; 3]]%nat
  ∧ cases_get 3 = Some [[8; 1; 3]; [8; 9; 1]]%nat.
Proof. split; vm_compute; reflexivity. Qed.

(** ** Insert-if-absent *)

(** Insert-if-absent: an entry, once in the dict, survives every later
    iteration of the innermost loop body... *)
Lemma insert_case_keeps op invert flip entry (tbl tbl' : gmap Z (list (list nat))) k v :
  tbl !! k = Some v →
  insert_case op invert flip entry tbl = Some tbl' →
  tbl' !! k = Some v.
Proof.
  intros Hk. unfold insert_case. destruct entry as [bits faces].
  destruct (bits_apply op bits) as [new_bits|]; simpl; [| discriminate].
  set (nb := if invert then 255 - new_bits else new_bits).
  destruct (tbl !! nb) eqn:Hnb.
  - intros [= <-]. exact Hk.
  - destruct (faces_apply op faces flip); simpl; [| discriminate].
    intros [= <-]. rewrite lookup_insert_ne; [exact Hk |].
    intros ->. congruence.
Qed.

(** ... and so every loop built from bodies that keep it. *)
Lemma for_each_keeps {A} (l : list A) (body : A → gmap Z (list (list nat)) → option (gmap Z (list (list nat))))
    (k : Z) (v : list (list nat)) :
  (∀ x tbl tbl', tbl !! k = Some v → body x tbl = Some tbl' → tbl' !! k = Some v) →
  ∀ tbl tbl', tbl !! k = Some v → for_each l body tbl = Some tbl' → tbl' !! k = Some v.
Proof.
  intros Hbody. induction l as [| x l IH]; intros tbl tbl' Hk; simpl.
  - intros [= <-]. exact Hk.
  - destruct (body x tbl) as [tbl1|] eqn:Hx; simpl; [| discriminate].
    apply IH. eapply Hbody; eauto.
Qed.

Lemma closure_body_keeps invert r1 r2 r3 refl (tbl tbl' : gmap Z (list (list nat))) k v :
  tbl !! k = Some v →
  closure_body invert r1 r2 r3 refl tbl = Some tbl' →
  tbl' !! k = Some v.
Proof.
  intros Hk. unfold closure_body.
  destruct (make_op r1 r2 r3 refl) as [op|]; cbn [mbind option_bind]; [| discriminate].
  apply for_each_keeps; [| exact Hk].
  intros entry t t'. apply insert_case_keeps.
Qed.

Lemma closure_pass_keeps invert (tbl tbl' : gmap Z (list (list nat))) k v :
  tbl !! k = Some v → closure_pass invert tbl = Some tbl' → tbl' !! k = Some v.
Proof.
  unfold closure_pass.
  apply for_each_keeps; intros r1. apply for_each_keeps; intros r2.
  apply for_each_keeps; intros r3. apply for_each_keeps; intros refl t t'.
  apply closure_body_keeps.
Qed.

Lemma for_each_two {A S} (a b : A) (body : A → S → option S) (s : S) :
  for_each [a; b] body s = (s' ← body a s; body b s').
Proof.
  simpl. destruct (body a s) as [s'|]; simpl; [| reflexivity].
  destruct (body b s'); reflexivity.
Qed.

Lemma build_cases_passes :
  build_cases = (tbl ← closure_pass false ∅; closure_pass true tbl).
Proof. unfold build_cases. rewrite for_each_two. reflexivity. Qed.

(** ** The hand-written inverse case for 255 - 5 *)

Lemma derived_250_differ r1 r2 r3 refl entry :
  (r1 < 4)%nat → (r2 < 4)%nat → (r3 < 4)%nat → (refl < 2)%nat →
  entry ∈ BASE_CASES →
  derived_by_inversion (255 - 5) r1 r2 r3 refl entry ≠ Some inverse_case_250.
Proof.
  intros H1 H2 H3 H4 He. revert entry He. apply Forall_forall.
  revert r1 r2 r3 refl H1 H2 H3 H4. apply forall_ops. by_evaluation.
Qed.

(** C4: the triangle list written in [INVERSE_CASES] for 255 - 0b00000101
    is the entry of the final table at that bit-pattern, triangle for
    triangle; it is there already when the non-inverted pass ends, and no
    inverted operation applied to a base case derives this list for that
    bit-pattern (at least one does derive a list for it), so the entry is
    the hand-written one and not a derived one. *)
Theorem inverse_case_250_verbatim :
  (255 - 5, inverse_case_250) ∈ INVERSE_CASES
  ∧ cases_get (255 - 5) = Some inverse_case_250
  ∧ (∃ tbl, closure_pass false ∅ = Some tbl ∧ tbl !! (255 - 5) = Some inverse_case_250)
  ∧ is_Some (derived_by_inversion (255 - 5) 0 0 0 0 (5, [[8; 0; 3]; [1; 10; 2]]%nat))
  ∧ Forall (λ r1, Forall (λ r2, Forall (λ r3, Forall (λ refl,
      Forall (λ entry,
        derived_by_inversion (255 - 5) r1 r2 r3 refl entry ≠ Some inverse_case_250)
      BASE_CASES) (range 2)) (range 4)) (range 4)) (range 4).
Proof.
  split; [by_evaluation |]. split; [vm_compute; reflexivity |].
  split; [| split; [by_evaluation | by_evaluation]].
  assert (H : is_Some (closure_pass false ∅ ≫= (.!! (255 - 5)))) by by_evaluation.
  destruct (closure_pass false ∅) as [tbl|] eqn:Hpass; [| by destruct H].
  exists tbl. split; [reflexivity |].
  pose proof cases_case_table as Hc. unfold cases in Hc.
  rewrite build_cases_passes, Hpass in Hc. cbn [mbind option_bind] in Hc.
  destruct H as [v Hv]. cbn [mbind option_bind] in Hv.
  pose proof (closure_pass_keeps _ _ _ _ _ Hv Hc) as Hfinal.
  assert (Hget : case_table !! (255 - 5) = Some inverse_case_250).
  { rewrite <- cases_get_case_table. vm_compute. reflexivity. }
  congruence.
Qed.

(** ** The edge lookup *)

Lemma by_vertset_snoc edges ends :
  by_vertset (edges ++ [ends]) = <[vertset ends := length edges]> (by_vertset edges).
Proof.
  unfold by_vertset, enumerate. rewrite imap_app, foldl_app. simpl.
  rewrite Nat.add_0_r. destruct ends as [v1 v2]. reflexivity.
Qed.

(** When no two edges have the same ends, the dict maps a set of corners
    to the position of the edge that has these ends. *)
Lemma by_vertset_lookup edges k e :
  NoDup (vertset <$> edges) →
  by_vertset edges !! k = Some e ↔ ∃ ends, edges !! e = Some ends ∧ vertset ends = k.
Proof.
  revert e. induction edges as [| ends edges IH] using rev_ind; intros e Hnd.
  - unfold by_vertset. simpl. rewrite lookup_empty. split; [discriminate |].
    intros (? & Hl & _). discriminate.
  - rewrite fmap_app in Hnd. apply NoDup_app in Hnd as (Hnd & Hfresh & _).
    assert (Hnew : vertset ends ∉ vertset <$> edges).
    { intros Hin. apply (Hfresh _ Hin). simpl. left. }
    rewrite by_vertset_snoc, lookup_insert. case_decide as Hk.
    + split.
      * intros [= <-]. exists ends. split; [| exact Hk].
        rewrite lookup_app_r by lia. rewrite Nat.sub_diag. reflexivity.
      * intros (ends' & Hl & Hk'). destruct (decide (e < length edges)%nat) as [Hlt|Hge].
        -- rewrite lookup_app_l in Hl by exact Hlt. exfalso. apply Hnew.
           rewrite Hk, <- Hk'. apply list_elem_of_fmap. exists ends'.
           split; [reflexivity |]. apply list_elem_of_lookup. eauto.
        -- apply lookup_lt_Some in Hl. rewrite length_app in Hl. simpl in Hl.
           f_equal. lia.
    + rewrite IH by exact Hnd. split.
      * intros (ends' & Hl & Hk'). exists ends'. split; [| exact Hk'].
        apply lookup_app_l_Some. exact Hl.
      * intros (ends' & Hl & Hk'). exists ends'. split; [| exact Hk'].
        apply lookup_app_Some in Hl as [Hl | [_ Hl]]; [exact Hl |].
        apply list_lookup_singleton_Some in Hl as [_ <-]. contradiction.
Qed.

Lemma vertset_eq (v1 v2 a b : nat) :
  v1 ≠ v2 →
  vertset (v1, v2) = frozenset [a; b] ↔ (v1 = a ∧ v2 = b) ∨ (v1 = b ∧ v2 = a).
Proof.
  intros Hne. unfold vertset, frozenset. simpl. split.
  - intros H. rewrite set_eq in H.
    pose proof (H v1) as H1. pose proof (H v2) as H2.
    pose proof (H a) as H3. pose proof (H b) as H4.
    rewrite !elem_of_union, !elem_of_singleton, elem_of_empty in H1, H2, H3, H4.
    destruct H1 as [[?|[?|[]]] _]; [auto |..];
      destruct H2 as [[?|[?|[]]] _]; [auto |..]; subst; try contradiction; auto.
  - intros [[-> ->] | [-> ->]]; [reflexivity |].
    apply set_eq. intros x.
    rewrite !elem_of_union, !elem_of_singleton, elem_of_empty. tauto.
Qed.

(** The lookup finds [e] exactly when [e] is the position in [EDGES] of the
    pair, in one order or the other. *)
Lemma edge_of_Some (a b e : nat) :
  edge_of a b = Some e ↔ EDGES !! e = Some (a, b) ∨ EDGES !! e = Some (b, a).
Proof.
  unfold edge_of. change EDGES_BY_VERTSET with (by_vertset EDGES).
  rewrite by_vertset_lookup by by_evaluation.
  assert (Hends : Forall (λ ends : nat * nat, ends.1 ≠ ends.2) EDGES) by by_evaluation.
  rewrite Forall_lookup in Hends. split.
  - intros ([v1 v2] & Hl & Hk). apply vertset_eq in Hk; [| exact (Hends _ _ Hl)].
    destruct Hk as [[<- <-] | [<- <-]]; auto.
  - intros [Hl | Hl].
    + exists (a, b). split; [exact Hl | reflexivity].
    + exists (b, a). split; [exact Hl |]. apply vertset_eq; [exact (Hends _ _ Hl) | auto].
Qed.

(** C9: the lookup [EDGES_BY_VERTSET[frozenset([a, b])]] raises exactly
    when the two corners are not adjacent, that is, when neither (a, b)
    nor (b, a) is one of the twelve edges; and it returns e exactly when e
    is the position in [EDGES] of the pair in one of the two orders, so
    that for adjacent corners the result is the one edge joining them. *)
Theorem edge_of_errors_iff_not_adjacent :
  (∀ a b, edge_of a b = None ↔ ¬ adjacent a b)
  ∧ (∀ a b e, edge_of a b = Some e ↔
       EDGES !! e = Some (a, b) ∨ EDGES !! e = Some (b, a))
  ∧ (∀ a b e e', edge_of a b = Some e →
       EDGES !! e' = Some (a, b) ∨ EDGES !! e' = Some (b, a) → e' = e).
Proof.
  split; [| split].
  - intros a b. unfold adjacent. split.
    + intros Hnone [e He]. apply edge_of_Some in He. congruence.
    + intros Hna. destruct (edge_of a b) as [e|] eqn:He; [| reflexivity].
      exfalso. apply Hna. exists e. apply edge_of_Some, He.
  - apply edge_of_Some.
  - intros a b e e' He He'. apply edge_of_Some in He'. congruence.
Qed.

Lemma EDGES_ends_lt (e v1 v2 : nat) :
  EDGES !! e = Some (v1, v2) → (v1 < 8)%nat ∧ (v2 < 8)%nat.
Proof.
  assert (H : Forall (λ ends : nat * nat, (ends.1 < 8)%nat ∧ (ends.2 < 8)%nat) EDGES)
    by by_evaluation.
  rewrite Forall_lookup in H. intros He. exact (H _ _ He).
Qed.

Lemma adjacent_edge_of (a b : nat) : adjacent a b ↔ is_Some (edge_of a b).
Proof.
  unfold adjacent. split.
  - intros [e He]. exists e. apply edge_of_Some, He.
  - intros [e He]. exists e. apply edge_of_Some, He.
Qed.

Lemma adjacent_sym (a b : nat) : adjacent a b → adjacent b a.
Proof. intros [e He]. exists e. tauto. Qed.

Lemma adjacent_lt (a b : nat) : adjacent a b → (a < 8)%nat ∧ (b < 8)%nat.
Proof. intros [e [He | He]]; apply EDGES_ends_lt in He; tauto. Qed.

(** ** Bit-patterns as sets of corners *)

(** The test [2**v & n > 0] reads bit [v] of [n]. *)
Lemma land_pow2_pos (v : nat) (n : Z) :
  Z.land (2 ^ Z.of_nat v) n > 0 ↔ Z.testbit n (Z.of_nat v) = true.
Proof.
  assert (Hland : Z.land (2 ^ Z.of_nat v) n
                  = if Z.testbit n (Z.of_nat v) then 2 ^ Z.of_nat v else 0).
  { apply Z.bits_inj'. intros m Hm. rewrite Z.land_spec, Z.pow2_bits_eqb by lia.
    destruct (Z.eqb_spec (Z.of_nat v) m) as [<- | Hne].
    - destruct (Z.testbit n (Z.of_nat v)); simpl.
      + rewrite Z.pow2_bits_eqb, Z.eqb_refl by lia. reflexivity.
      + rewrite Z.bits_0. reflexivity.
    - simpl. destruct (Z.testbit n (Z.of_nat v)).
      + rewrite Z.pow2_bits_eqb by lia. symmetry. apply Z.eqb_neq. exact Hne.
      + rewrite Z.bits_0. reflexivity. }
  rewrite Hland. destruct (Z.testbit n (Z.of_nat v)).
  - split; [reflexivity |]. intros _. pose proof (Z.pow_pos_nonneg 2 (Z.of_nat v)). lia.
  - split; [lia | discriminate].
Qed.

Lemma elem_of_bits_to_verts (v : nat) (n : Z) :
  v ∈ bits_to_verts n ↔ (v < 8)%nat ∧ Z.testbit n (Z.of_nat v) = true.
Proof.
  unfold bits_to_verts, range. rewrite list_elem_of_filter, elem_of_seq, land_pow2_pos.
  split; intros [? ?]; split; auto; lia.
Qed.

Lemma NoDup_bits_to_verts (n : Z) : NoDup (bits_to_verts n).
Proof. unfold bits_to_verts, range. apply NoDup_filter, NoDup_seq. Qed.

Lemma bits_to_verts_lt (n : Z) : Forall (λ v, (v < 8)%nat) (bits_to_verts n).
Proof. apply Forall_forall. intros v Hv. apply elem_of_bits_to_verts in Hv. tauto. Qed.

Lemma verts_to_bits_acc (vs : list nat) (acc : Z) :
  foldl (λ acc v, acc + 2 ^ Z.of_nat v) acc vs = acc + verts_to_bits vs.
Proof.
  unfold verts_to_bits. revert acc. induction vs as [| v vs IH]; intros acc; simpl.
  - lia.
  - rewrite IH, (IH (0 + 2 ^ Z.of_nat v)). lia.
Qed.

Lemma verts_to_bits_cons (v : nat) (vs : list nat) :
  verts_to_bits (v :: vs) = 2 ^ Z.of_nat v + verts_to_bits vs.
Proof. unfold verts_to_bits at 1. simpl. apply verts_to_bits_acc. Qed.

(** The sum does not depend on the order of the corners. *)
Lemma verts_to_bits_Permutation (vs ws : list nat) :
  vs ≡ₚ ws → verts_to_bits vs = verts_to_bits ws.
Proof.
  induction 1 as [| v vs ws _ IH | v w vs | vs ws us _ IH1 _ IH2].
  - reflexivity.
  - rewrite !verts_to_bits_cons, IH. reflexivity.
  - rewrite !verts_to_bits_cons. lia.
  - congruence.
Qed.

(** For distinct corners, the sum has exactly the bits of the corners. *)
Lemma verts_to_bits_testbit (vs : list nat) (v : nat) :
  NoDup vs →
  Z.testbit (verts_to_bits vs) (Z.of_nat v) = bool_decide (v ∈ vs).
Proof.
  intros Hnd. revert v. induction Hnd as [| w vs Hw Hnd IH]; intros v.
  - unfold verts_to_bits. simpl. rewrite Z.bits_0. reflexivity.
  - rewrite verts_to_bits_cons.
    assert (Hdisj : Z.land (2 ^ Z.of_nat w) (verts_to_bits vs) = 0).
    { assert (Hnot : ¬ Z.land (2 ^ Z.of_nat w) (verts_to_bits vs) > 0).
      { rewrite land_pow2_pos, IH, bool_decide_eq_true. exact Hw. }
      assert (0 ≤ Z.land (2 ^ Z.of_nat w) (verts_to_bits vs)); [| lia].
      apply Z.land_nonneg. left. apply Z.pow_nonneg. lia. }
    rewrite (Z.add_nocarry_lxor _ _ Hdisj), Z.lxor_spec, Z.pow2_bits_eqb, IH by lia.
    destruct (Z.eqb_spec (Z.of_nat w) (Z.of_nat v)) as [Heq | Hne].
    + apply Nat2Z.inj in Heq as <-.
      rewrite (bool_decide_eq_false_2 _ Hw), bool_decide_eq_true_2 by left.
      reflexivity.
    + simpl. apply bool_decide_ext. rewrite elem_of_cons.
      split; [auto |]. intros [-> | ?]; [contradiction | assumption].
Qed.

(** Reading back the corners of a sum of distinct corners below 8 gives the
    same corners, in increasing order. *)
Lemma bits_to_verts_verts_to_bits (vs : list nat) :
  NoDup vs → Forall (λ v, (v < 8)%nat) vs →
  bits_to_verts (verts_to_bits vs) ≡ₚ vs.
Proof.
  intros Hnd Hlt. apply NoDup_Permutation; [apply NoDup_bits_to_verts | exact Hnd |].
  intros v. rewrite elem_of_bits_to_verts, verts_to_bits_testbit, bool_decide_eq_true by exact Hnd.
  rewrite Forall_forall in Hlt. split; [tauto | auto].
Qed.

(** ** Permutations of the corners *)

Lemma perm_lookup (op : list nat) (v : nat) :
  length op = 8%nat → (v < 8)%nat → op !! v = Some (image op v).
Proof.
  intros Hlen Hv. unfold image.
  destruct (lookup_lt_is_Some_2 op v) as [w ->]; [lia | reflexivity].
Qed.

Lemma mapM_perm_lookup (op : list nat) (vs : list nat) :
  length op = 8%nat → Forall (λ v, (v < 8)%nat) vs →
  mapM (λ v, op !! v) vs = Some (image op <$> vs).
Proof.
  intros Hlen Hvs. apply mapM_Some. induction Hvs as [| v vs Hv _ IH]; simpl.
  - constructor.
  - constructor; [apply perm_lookup; assumption | exact IH].
Qed.

(** [bits_apply] with a list of length 8 never raises. *)
Lemma bits_apply_Some (op : list nat) (n : Z) :
  length op = 8%nat →
  bits_apply op n = Some (verts_to_bits (image op <$> bits_to_verts n)).
Proof.
  intros Hlen. unfold bits_apply.
  rewrite (mapM_perm_lookup op _ Hlen (bits_to_verts_lt n)). reflexivity.
Qed.

Lemma image_inj (op : list nat) (v w : nat) :
  is_perm op → (v < 8)%nat → (w < 8)%nat → image op v = image op w → v = w.
Proof.
  intros (Hlen & Hnd & _) Hv Hw Heq.
  apply (NoDup_lookup op v w (image op v)); [exact Hnd | |].
  - apply perm_lookup; assumption.
  - rewrite Heq. apply perm_lookup; assumption.
Qed.

Lemma image_lt (op : list nat) (v : nat) :
  is_perm op → (v < 8)%nat → (image op v < 8)%nat.
Proof.
  intros (Hlen & _ & Hlt) Hv. rewrite Forall_forall in Hlt. apply Hlt.
  apply list_elem_of_lookup. exists v. apply perm_lookup; assumption.
Qed.

(** The images of distinct corners are distinct corners. *)
Lemma image_verts (op : list nat) (vs : list nat) :
  is_perm op → NoDup vs → Forall (λ v, (v < 8)%nat) vs →
  NoDup (image op <$> vs) ∧ Forall (λ v, (v < 8)%nat) (image op <$> vs).
Proof.
  intros Hop Hnd Hlt. rewrite Forall_forall in Hlt. split.
  - apply NoDup_fmap_2_strong; [| exact Hnd].
    intros v w Hv Hw. apply image_inj; auto.
  - apply Forall_forall. intros w Hw. apply list_elem_of_fmap in Hw as (v & -> & Hv).
    apply image_lt; auto.
Qed.

(** The corners of [bits_apply(op, n)] are the images of the corners of
    [n]. *)
Lemma bits_to_verts_bits_apply (op : list nat) (n : Z) :
  is_perm op →
  ∃ m, bits_apply op n = Some m ∧ bits_to_verts m ≡ₚ image op <$> bits_to_verts n.
Proof.
  intros Hop. eexists. split; [apply bits_apply_Some, Hop |].
  destruct (image_verts op (bits_to_verts n) Hop (NoDup_bits_to_verts n) (bits_to_verts_lt n)).
  apply bits_to_verts_verts_to_bits; assumption.
Qed.

(** The two-argument [compose] of two lists of length 8, the first with
    entries below 8, never raises. *)
Lemma compose2_Some (op1 op2 : list nat) :
  is_perm op1 → length op2 = 8%nat →
  compose2 op1 op2 = Some ((λ v, image op2 (image op1 v)) <$> range 8).
Proof.
  intros Hop1 Hlen2. unfold compose2. apply mapM_Some.
  apply Forall2_fmap_r, Forall_Forall2_diag, Forall_forall.
  intros v Hv. unfold range in Hv. apply elem_of_seq in Hv.
  rewrite (perm_lookup op1 v) by (apply Hop1 || lia). cbn [mbind option_bind].
  apply perm_lookup; [exact Hlen2 |]. apply image_lt; [exact Hop1 | lia].
Qed.

Lemma image_fmap_range (f : nat → nat) (v : nat) :
  (v < 8)%nat → image (f <$> range 8) v = f v.
Proof.
  intros Hv. unfold image, range. rewrite list_lookup_fmap, lookup_seq_lt by lia.
  reflexivity.
Qed.

Lemma bits_apply_identity p : 0 ≤ p ≤ 255 → bits_apply identity p = Some p.
Proof. revert p. apply forall_patterns. by_evaluation. Qed.

(** ** [bits_apply] is a group action *)

(** C5: on every bit-pattern p in 0..255, applying the identity permutation
    gives p back, and for permutations perm1 and perm2 of the corners,
    [compose(perm1, perm2)] is defined, applying perm1 to p is defined, and
    applying perm2 to the result is the same (defined) bit-pattern as
    applying [compose(perm1, perm2)] to p. *)
Theorem bits_apply_group_action :
  (∀ p, 0 ≤ p ≤ 255 → bits_apply identity p = Some p)
  ∧ (∀ perm1 perm2 p, is_perm perm1 → is_perm perm2 → 0 ≤ p ≤ 255 →
       ∃ c q r, compose [perm1; perm2] = Some c
         ∧ bits_apply perm1 p = Some q
         ∧ bits_apply perm2 q = Some r
         ∧ bits_apply c p = Some r).
Proof.
  split; [exact bits_apply_identity |].
  intros perm1 perm2 p Hp1 Hp2 _.
  destruct (bits_to_verts_bits_apply perm1 p Hp1) as (q & Hq & Hverts).
  assert (Hlen2 : length perm2 = 8%nat) by apply Hp2.
  eexists _, q, _. split; [apply compose2_Some; assumption |].
  split; [exact Hq |]. split; [apply bits_apply_Some, Hlen2 |].
  rewrite bits_apply_Some by (rewrite length_fmap; reflexivity).
  f_equal. rewrite (verts_to_bits_Permutation _ _ (fmap_Permutation (image perm2) _ _ Hverts)).
  rewrite <- list_fmap_compose. f_equal. apply Forall_fmap_ext_1.
  eapply Forall_impl; [apply bits_to_verts_lt |].
  intros v Hv. rewrite image_fmap_range by exact Hv. reflexivity.
Qed.

Lemma bits_apply_group_action_witness :
  bits_apply identity 37 = Some 37
  ∧ ∃ c q r, compose [ROTATE_1; ROTATE_2] = Some c
      ∧ bits_apply ROTATE_1 37 = Some q
      ∧ bits_apply ROTATE_2 q = Some r
      ∧ bits_apply c 37 = Some r.
Proof.
  split.
  - apply (proj1 bits_apply_group_action 37). lia.
  - apply (proj2 bits_apply_group_action ROTATE_1 ROTATE_2 37).
    + by_evaluation.
    + by_evaluation.
    + lia.
Defined.

(** ** Permutations are closed under [compose] *)

Lemma identity_perm : is_perm identity.
Proof. by_evaluation. Qed.

Lemma generators_perm : Forall is_perm [ROTATE_1; ROTATE_2; ROTATE_3; REFLECT].
Proof. by_evaluation. Qed.

Lemma compose2_perm (op1 op2 : list nat) :
  is_perm op1 → is_perm op2 →
  ∃ c, compose2 op1 op2 = Some c ∧ is_perm c
       ∧ ∀ v, (v < 8)%nat → image c v = image op2 (image op1 v).
Proof.
  intros Hop1 Hop2. eexists. split; [apply compose2_Some; [exact Hop1 | apply Hop2] |].
  split; [| intros v Hv; exact (image_fmap_range (λ v, image op2 (image op1 v)) v Hv)].
  assert (Hrange : Forall (λ v, (v < 8)%nat) (range 8)).
  { apply Forall_forall. intros v Hv. unfold range in Hv. apply elem_of_seq in Hv. lia. }
  destruct (image_verts op1 (range 8) Hop1 (NoDup_seq 0 8) Hrange) as [Hnd1 Hlt1].
  destruct (image_verts op2 _ Hop2 Hnd1 Hlt1) as [Hnd2 Hlt2].
  rewrite <- list_fmap_compose in Hnd2, Hlt2.
  split; [| split]; [rewrite length_fmap; reflexivity | exact Hnd2 | exact Hlt2].
Qed.

(** The equations of the variadic [compose] from three arguments on. *)
Lemma compose_cons (op1 op2 op3 : list nat) (rest : list (list nat)) :
  compose (op1 :: op2 :: op3 :: rest) = (r ← compose (op2 :: op3 :: rest); compose2 op1 r).
Proof. reflexivity. Qed.

(** A property of permutations that the identity has and the two-argument
    [compose] keeps is kept by the variadic [compose] and by [pow]. *)
Section closure.
Variable P : list nat → Prop.
Hypothesis P_identity : P identity.
Hypothesis P_compose2 : ∀ op1 op2, P op1 → P op2 → ∃ c, compose2 op1 op2 = Some c ∧ P c.

Lemma compose_closed (ops : list (list nat)) :
  Forall P ops → ∃ c, compose ops = Some c ∧ P c.
Proof.
  induction 1 as [| op1 rest Hop1 Hrest IH].
  - exists identity. split; [reflexivity | exact P_identity].
  - destruct rest as [| op2 [| op3 rest]].
    + exists op1. split; [reflexivity | exact Hop1].
    + apply P_compose2; [exact Hop1 |]. apply Forall_inv in Hrest. exact Hrest.
    + destruct IH as (r & Hr & HPr). rewrite compose_cons, Hr.
      apply P_compose2; assumption.
Qed.

Lemma pow_closed (op : list nat) (n : nat) :
  P op → ∃ c, pow op n = Some c ∧ P c.
Proof.
  intros Hop. apply compose_closed, Forall_forall.
  intros op' Hin. apply elem_of_replicate in Hin as [-> _]. exact Hop.
Qed.

Lemma make_op_closed (r1 r2 r3 refl : nat) :
  P ROTATE_1 → P ROTATE_2 → P ROTATE_3 → P REFLECT →
  ∃ op, make_op r1 r2 r3 refl = Some op ∧ P op.
Proof.
  intros H1 H2 H3 H4. unfold make_op.
  destruct (pow_closed ROTATE_1 r1 H1) as (p1 & -> & Hp1).
  destruct (pow_closed ROTATE_2 r2 H2) as (p2 & -> & Hp2).
  destruct (pow_closed ROTATE_3 r3 H3) as (p3 & -> & Hp3).
  destruct (pow_closed REFLECT refl H4) as (p4 & -> & Hp4).
  cbn [mbind option_bind]. apply compose_closed. repeat constructor; assumption.
Qed.
End closure.

(** ** Symmetries: permutations that map edges to edges *)

Lemma edge_preserving_adjacent (op : list nat) (a b : nat) :
  edge_preserving op → adjacent a b → adjacent (image op a) (image op b).
Proof.
  unfold edge_preserving. rewrite Forall_lookup. intros Hop [e [He | He]].
  - apply adjacent_edge_of. exact (Hop _ _ He).
  - apply adjacent_sym, adjacent_edge_of. exact (Hop _ _ He).
Qed.

Lemma identity_symmetry : symmetry identity.
Proof. by_evaluation. Qed.

(** Every generator maps edges to edges. *)
Lemma generators_symmetry : Forall symmetry [ROTATE_1; ROTATE_2; ROTATE_3; REFLECT].
Proof. by_evaluation. Qed.

Lemma compose2_symmetry (op1 op2 : list nat) :
  symmetry op1 → symmetry op2 → ∃ c, compose2 op1 op2 = Some c ∧ symmetry c.
Proof.
  intros [Hp1 He1] [Hp2 He2].
  destruct (compose2_perm op1 op2 Hp1 Hp2) as (c & Hc & Hpc & Him).
  exists c. split; [exact Hc |]. split; [exact Hpc |].
  unfold edge_preserving. apply Forall_lookup. intros e [a b] He. simpl.
  assert (Hab : adjacent a b) by (exists e; auto).
  destruct (adjacent_lt a b Hab) as [Ha Hb].
  rewrite !Him by assumption. apply adjacent_edge_of.
  apply edge_preserving_adjacent; [exact He2 |].
  apply edge_preserving_adjacent; [exact He1 | exact Hab].
Qed.

(** The operation of the loop nest is a symmetry, whatever the powers. *)
Lemma make_op_symmetry (r1 r2 r3 refl : nat) :
  ∃ op, make_op r1 r2 r3 refl = Some op ∧ symmetry op.
Proof.
  pose proof generators_symmetry as Hgen.
  apply make_op_closed; [exact identity_symmetry | exact compose2_symmetry |..].
  - eapply Forall_lookup_1 with (i := 0%nat) in Hgen; [exact Hgen | reflexivity].
  - eapply Forall_lookup_1 with (i := 1%nat) in Hgen; [exact Hgen | reflexivity].
  - eapply Forall_lookup_1 with (i := 2%nat) in Hgen; [exact Hgen | reflexivity].
  - eapply Forall_lookup_1 with (i := 3%nat) in Hgen; [exact Hgen | reflexivity].
Qed.

(** [edge_apply] with a symmetry finds an edge for each of the twelve. *)
Lemma edge_apply_symmetry (op : list nat) (edge : nat) :
  symmetry op → (edge < 12)%nat →
  ∃ edge', edge_apply op edge = Some edge' ∧ (edge' < 12)%nat.
Proof.
  intros [Hp He] Hedge. unfold edge_apply.
  destruct (lookup_lt_is_Some_2 EDGES edge) as [[v1 v2] Hl]; [simpl; lia |].
  rewrite Hl. cbn [mbind option_bind].
  assert (Hab : adjacent v1 v2) by (exists edge; auto).
  destruct (adjacent_lt v1 v2 Hab) as [H1 H2].
  rewrite (perm_lookup op v1), (perm_lookup op v2) by (apply Hp || assumption).
  cbn [mbind option_bind].
  apply (edge_preserving_adjacent op) in Hab; [| exact He].
  apply adjacent_edge_of in Hab as [edge' Hedge']. exists edge'. split; [exact Hedge' |].
  apply edge_of_Some in Hedge'. destruct Hedge' as [Hl' | Hl'];
    apply lookup_lt_Some in Hl'; exact Hl'.
Qed.

(** ** The edge lookup of [edge_apply] never fails during generation *)

(** C6: for every operation the loop nest builds from powers of the three
    rotations and of the reflection (whatever the four exponents, so also
    for the exponents 0..3 and 0..1 the loops run through) and every edge
    index 0..11, [edge_apply] returns an edge index 0..11, with no failed
    lookup; and the whole generation ends without raising. *)
Theorem edge_apply_never_fails (r1 r2 r3 refl edge : nat) :
  (edge < 12)%nat →
  (∃ op edge', make_op r1 r2 r3 refl = Some op
      ∧ edge_apply op edge = Some edge' ∧ (edge' < 12)%nat)
  ∧ is_Some cases.
Proof.
  intros Hedge. split; [| exact cases_is_Some].
  destruct (make_op_symmetry r1 r2 r3 refl) as (op & Hop & Hsym).
  destruct (edge_apply_symmetry op edge Hsym Hedge) as (edge' & He & Hlt).
  exists op, edge'. auto.
Qed.

Lemma edge_apply_never_fails_witness :
  (∃ op edge', make_op 3 2 1 1 = Some op
      ∧ edge_apply op 11 = Some edge' ∧ (edge' < 12)%nat)
  ∧ is_Some cases.
Proof. apply (edge_apply_never_fails 3 2 1 1 11). lia. Defined.

(** ** The number of solid corners *)

(** C10: a permutation of the corners applied to a bit-pattern in 0..255
    gives a bit-pattern with as many solid corners; in particular each
    operation of the loop nest is a permutation and takes the bit-pattern of
    each entry of [BASE_CASES] to a bit-pattern with as many solid corners,
    and this bit-pattern is the one key at which the non-inverted insertion
    of the derived entry can change the table. *)
Theorem solid_count_invariant :
  (∀ op n, is_perm op → 0 ≤ n ≤ 255 →
     ∃ m, bits_apply op n = Some m ∧ solid_count m = solid_count n)
  ∧ (∀ r1 r2 r3 refl bits faces,
       (r1 < 4)%nat → (r2 < 4)%nat → (r3 < 4)%nat → (refl < 2)%nat →
       (bits, faces) ∈ BASE_CASES →
       ∃ op new_bits, make_op r1 r2 r3 refl = Some op ∧ is_perm op
         ∧ bits_apply op bits = Some new_bits
         ∧ solid_count new_bits = solid_count bits
         ∧ ∀ flip (tbl tbl' : gmap Z (list (list nat))),
             insert_case op false flip (bits, faces) tbl = Some tbl' →
             is_Some (tbl' !! new_bits)
             ∧ ∀ k, k ≠ new_bits → tbl' !! k = tbl !! k).
Proof.
  assert (Hgen : ∀ op n, is_perm op →
            ∃ m, bits_apply op n = Some m ∧ solid_count m = solid_count n).
  { intros op n Hop. destruct (bits_to_verts_bits_apply op n Hop) as (m & Hm & Hverts).
    exists m. split; [exact Hm |]. unfold solid_count.
    rewrite Hverts, length_fmap. reflexivity. }
  split; [intros op n Hop _; apply Hgen, Hop |].
  intros r1 r2 r3 refl bits faces _ _ _ _ _.
  destruct (make_op_symmetry r1 r2 r3 refl) as (op & Hop & [Hperm _]).
  destruct (Hgen op bits Hperm) as (m & Hm & Hcount).
  exists op, m. split; [exact Hop |]. split; [exact Hperm |].
  split; [exact Hm |]. split; [exact Hcount |].
  intros flip tbl tbl'. unfold insert_case. rewrite Hm. cbn [mbind option_bind].
  destruct (tbl !! m) as [old|] eqn:Hold.
  - intros [= <-]. split; [eauto | reflexivity].
  - destruct (faces_apply op faces flip) as [new_faces|]; cbn [mbind option_bind];
      [| discriminate].
    intros [= <-]. split.
    + rewrite lookup_insert_eq. eauto.
    + intros k Hk. apply lookup_insert_ne. congruence.
Qed.

Lemma solid_count_invariant_witness :
  (∃ m, bits_apply ROTATE_3 177 = Some m ∧ solid_count m = solid_count 177)
  ∧ (∃ op new_bits, make_op 1 0 2 1 = Some op ∧ is_perm op
       ∧ bits_apply op 5 = Some new_bits
       ∧ solid_count new_bits = solid_count 5
       ∧ ∀ flip (tbl tbl' : gmap Z (list (list nat))),
           insert_case op false flip (5, [[8; 0; 3]; [1; 10; 2]]%nat) tbl = Some tbl' →
           is_Some (tbl' !! new_bits)
           ∧ ∀ k, k ≠ new_bits → tbl' !! k = tbl !! k).
Proof.
  split.
  - apply (proj1 solid_count_invariant ROTATE_3 177); [by_evaluation | lia].
  - apply (proj2 solid_count_invariant 1%nat 0%nat 2%nat 1%nat 5
             [[8; 0; 3]; [1; 10; 2]]%nat); try lia.
    by_evaluation.
Defined.

(** ** What the validators check *)

(** A loop that only checks succeeds exactly when every check does. *)
Lemma for_each_checks {A} (l : list A) (check : A → option ()) :
  for_each l (λ x _, check x) () = Some () ↔ Forall (λ x, check x = Some ()) l.
Proof.
  induction l as [| x l IH]; simpl.
  - split; [constructor | reflexivity].
  - rewrite Forall_cons, <- IH. destruct (check x) as [[]|]; simpl.
    + tauto.
    + split; [discriminate | intros [? _]; discriminate].
Qed.

(** A validator that ran through has checked every bit-pattern in 0..255. *)
Lemma validator_patterns (body : Z → option ()) (p : Z) :
  for_each (range 256) (λ bits _, body (Z.of_nat bits)) () = Some () →
  0 ≤ p ≤ 255 → body p = Some ().
Proof.
  rewrite (for_each_checks _ (λ bits, body (Z.of_nat bits))). intros Hall.
  revert p. apply forall_patterns. exact Hall.
Qed.

(** The validator [test1] runs through without a failed assertion. *)
Lemma test1_passes : test1 = Some ().
Proof. vm_compute. reflexivity. Qed.

(** The validator [test2] runs through without a failed assertion. *)
Lemma test2_passes : test2 = Some ().
Proof. vm_compute. reflexivity. Qed.

Lemma elem_of_concat {A} (x : A) (ls : list (list A)) :
  x ∈ concat ls ↔ ∃ l, l ∈ ls ∧ x ∈ l.
Proof.
  rewrite list_elem_of_In, in_concat. split.
  - intros (l & Hl & Hx). exists l. rewrite !list_elem_of_In. auto.
  - intros (l & Hl & Hx). exists l. rewrite <- !list_elem_of_In. auto.
Qed.

(** The body of [test1] succeeds on a bit-pattern exactly when every edge
    of every face of its entry is one of the twelve and has one end among
    the solid corners. *)
Lemma test1_bits_Some (p : Z) :
  test1_bits p = Some () ↔
  ∃ faces, cases_get p = Some faces
    ∧ ∀ face edge, face ∈ faces → edge ∈ face →
        ∃ ends, EDGES !! edge = Some ends
          ∧ solid_ends (list_to_set (bits_to_verts p)) ends = 1%nat.
Proof.
  unfold test1_bits.
  destruct (cases_get p) as [faces|]; cbn [mbind option_bind];
    [| split; [discriminate | intros (? & [=] & _)]].
  rewrite (for_each_checks _ (λ edge, ends ← EDGES !! edge;
     if decide (solid_ends (list_to_set (bits_to_verts p)) ends = 1%nat)
     then Some () else None)).
  rewrite Forall_forall.
  assert (Hedge : ∀ edge,
    (EDGES !! edge ≫= λ ends,
       if decide (solid_ends (list_to_set (bits_to_verts p)) ends = 1%nat)
       then Some () else None) = Some () ↔
    ∃ ends, EDGES !! edge = Some ends
      ∧ solid_ends (list_to_set (bits_to_verts p)) ends = 1%nat).
  { intros edge. destruct (EDGES !! edge) as [ends|]; cbn [mbind option_bind].
    - case_decide; split; eauto; try discriminate.
      intros (? & [= <-] & ?). contradiction.
    - split; [discriminate | intros (? & [=] & _)]. }
  split.
  - intros Hall. exists faces. split; [reflexivity |]. intros face edge Hface Hin.
    apply Hedge, Hall, elem_of_elements, elem_of_list_to_set, elem_of_concat. eauto.
  - intros (? & [= <-] & Hall) edge Hin.
    apply elem_of_elements, elem_of_list_to_set, elem_of_concat in Hin as (face & Hface & Hin).
    apply Hedge. eauto.
Qed.

(** For a bit-pattern in 0..255, the count asserted by [test1] is 1 exactly
    when one of the two ends of the edge has its bit set. *)
Lemma solid_ends_1 (p : Z) (v1 v2 : nat) :
  (v1 < 8)%nat → (v2 < 8)%nat →
  solid_ends (list_to_set (bits_to_verts p)) (v1, v2) = 1%nat ↔
  xorb (Z.testbit p (Z.of_nat v1)) (Z.testbit p (Z.of_nat v2)) = true.
Proof.
  intros H1 H2. unfold solid_ends. simpl fst. simpl snd.
  assert (Hin : ∀ v, (v < 8)%nat →
            v ∈ (list_to_set (bits_to_verts p) : gset nat) ↔ Z.testbit p (Z.of_nat v) = true).
  { intros v Hv. rewrite elem_of_list_to_set, elem_of_bits_to_verts. tauto. }
  rewrite !filter_cons, filter_nil.
  destruct (decide (v1 ∈ _)) as [Hv1 | Hv1], (decide (v2 ∈ _)) as [Hv2 | Hv2];
    rewrite (Hin v1 H1) in Hv1; rewrite (Hin v2 H2) in Hv2;
    destruct (Z.testbit p (Z.of_nat v1)), (Z.testbit p (Z.of_nat v2));
    simpl; split; congruence || lia.
Qed.

Lemma occurrences_cons (k x : gset nat) (l : list (gset nat)) :
  occurrences k (x :: l) = ((if decide (x = k) then 1 else 0) + occurrences k l)%nat.
Proof.
  unfold occurrences. rewrite filter_cons. destruct (decide (x = k)); reflexivity.
Qed.

Lemma occurrences_pos (k : gset nat) (l : list (gset nat)) :
  k ∈ l ↔ occurrences k l ≠ 0%nat.
Proof.
  induction l as [| x l IH].
  - split; [intros H; inversion H | intros H; contradiction].
  - rewrite elem_of_cons, occurrences_cons, IH.
    destruct (decide (x = k)) as [-> | Hne]; simpl; [split; [lia | auto] |].
    split; [intros [-> | ?]; [contradiction | assumption] | auto].
Qed.

(** [Counter] counts: a key is in the dict when it occurs in the list, with
    its number of occurrences. *)
Lemma Counter_lookup (l : list (gset nat)) (k : gset nat) (n : nat) :
  Counter l !! k = Some n ↔ k ∈ l ∧ n = occurrences k l.
Proof.
  unfold Counter.
  assert (Hacc : ∀ c : gmap (gset nat) nat,
    foldl (λ c k, <[k := S (default 0%nat (c !! k))]> c) c l !! k =
    if decide (occurrences k l = 0%nat) then c !! k
    else Some (default 0%nat (c !! k) + occurrences k l)%nat).
  { induction l as [| x l IH]; intros c.
    - reflexivity.
    - simpl foldl. rewrite IH, occurrences_cons.
      destruct (decide (x = k)) as [-> | Hne].
      + rewrite lookup_insert_eq. cbn [default].
        repeat case_decide; try lia; f_equal; unfold id; lia.
      + rewrite lookup_insert_ne by exact Hne. reflexivity. }
  rewrite Hacc, lookup_empty, occurrences_pos. simpl.
  destruct (decide (occurrences k l = 0%nat)) as [Hz | Hnz].
  - split; [discriminate | tauto].
  - split; [intros [= <-]; auto | intros [_ ->]; reflexivity].
Qed.

Lemma on_boundary_b_sound pair : on_boundary_b pair = true → on_boundary pair.
Proof.
  unfold on_boundary_b, on_boundary.
  destruct (elements pair) as [| edge1 [| edge2 [| ? ?]]] eqn:Hel; try discriminate.
  destruct (d_midpoint edge1) as [m1|] eqn:Hm1; [| discriminate].
  destruct (d_midpoint edge2) as [m2|] eqn:Hm2; [| discriminate].
  intros Hl%bool_decide_eq_true_1.
  exists edge1, edge2, m1, m2. split; [| split; [| split; [| split]]]; try done.
  - apply set_eq. intros x. rewrite <- elem_of_elements, Hel.
    rewrite !elem_of_cons, elem_of_nil, elem_of_union, !elem_of_singleton. tauto.
  - pose proof (NoDup_elements pair) as Hnd. rewrite Hel in Hnd.
    apply NoDup_cons in Hnd as [Hnotin _]. intros ->. apply Hnotin. left.
Qed.

(** [check_pair] succeeds exactly on the sides that occur twice or pass the
    geometric test. *)
Lemma check_pair_Some pair count :
  check_pair pair count = Some () ↔ count = 2%nat ∨ on_boundary_b pair = true.
Proof.
  unfold check_pair, on_boundary_b. destruct (decide (count = 2%nat)) as [->|Hne].
  - split; auto.
  - destruct (elements pair) as [| edge1 [| edge2 [| ? ?]]];
      try (split; [discriminate | intros [?|?]; [lia | discriminate]]).
    destruct (d_midpoint edge1) as [m1|]; cbn [mbind option_bind];
      [| split; [discriminate | intros [?|?]; [lia | discriminate]]].
    destruct (d_midpoint edge2) as [m2|]; cbn [mbind option_bind];
      [| split; [discriminate | intros [?|?]; [lia | discriminate]]].
    destruct (decide (length_sq m1 m2 = 2 ∨ length_sq m1 m2 = 4)) as [Hl|Hl].
    + rewrite bool_decide_eq_true_2 by exact Hl. split; auto.
    + rewrite bool_decide_eq_false_2 by exact Hl.
      split; [discriminate | intros [?|?]; [lia | discriminate]].
Qed.

(** The body of [test2] succeeds on a bit-pattern exactly when the sides of
    its entry can be formed and each of them occurs twice or passes the
    geometric test. *)
Lemma test2_bits_Some (p : Z) :
  test2_bits p = Some () ↔
  ∃ faces pairs, cases_get p = Some faces ∧ edge_pairs faces = Some pairs
    ∧ ∀ pair, pair ∈ pairs → occurrences pair pairs = 2%nat ∨ on_boundary_b pair = true.
Proof.
  unfold test2_bits.
  destruct (cases_get p) as [faces|]; cbn [mbind option_bind];
    [| split; [discriminate | intros (? & ? & [=] & _)]].
  destruct (edge_pairs faces) as [pairs|] eqn:Hpairs; cbn [mbind option_bind];
    [| split; [discriminate | intros (? & ? & [= <-] & ? & _); congruence]].
  rewrite (for_each_checks _ (λ item, let '(edge_pair, count) := item in
                                        check_pair edge_pair count)).
  rewrite Forall_forall. split.
  - intros Hall. exists faces, pairs. split; [reflexivity |]. split; [exact Hpairs |].
    intros pair Hin. specialize (Hall (pair, occurrences pair pairs)).
    apply check_pair_Some, Hall, elem_of_map_to_list, Counter_lookup. auto.
  - intros (? & pairs' & [= <-] & Hpairs' & Hall) [pair count] Hin.
    assert (pairs' = pairs) as -> by congruence.
    apply elem_of_map_to_list, Counter_lookup in Hin as [Hin ->].
    apply check_pair_Some, Hall, Hin.
Qed.

(** ** The edge-solid invariant *)

(** C2: for every bit-pattern p in 0..255 and every edge of every triangle
    of the table's entry for p, the edge is one of the twelve and exactly
    one of its two ends is among the solid corners of p (the count asserted
    by [test1] is 1), that is, exactly one of the two ends has its bit set
    in p. *)
Theorem edge_solid_invariant (p : Z) (faces : list (list nat)) (face : list nat) (edge : nat) :
  0 ≤ p ≤ 255 →
  cases_get p = Some faces →
  face ∈ faces →
  edge ∈ face →
  ∃ v1 v2,
    EDGES !! edge = Some (v1, v2)
    ∧ solid_ends (list_to_set (bits_to_verts p)) (v1, v2) = 1%nat
    ∧ xorb (Z.testbit p (Z.of_nat v1)) (Z.testbit p (Z.of_nat v2)) = true.
Proof.
  intros Hp Hfaces Hface Hedge.
  pose proof (validator_patterns test1_bits p test1_passes Hp) as Hcheck.
  apply test1_bits_Some in Hcheck as (faces' & Hfaces' & Hall).
  assert (faces' = faces) as -> by congruence.
  destruct (Hall face edge Hface Hedge) as ([v1 v2] & Hends & Hsolid).
  exists v1, v2. split; [exact Hends |]. split; [exact Hsolid |].
  destruct (EDGES_ends_lt _ _ _ Hends) as [H1 H2].
  apply solid_ends_1; assumption.
Qed.

Lemma edge_solid_invariant_witness :
  ∃ v1 v2,
    EDGES !! 9%nat = Some (v1, v2)
    ∧ solid_ends (list_to_set (bits_to_verts 3)) (v1, v2) = 1%nat
    ∧ xorb (Z.testbit 3 (Z.of_nat v1)) (Z.testbit 3 (Z.of_nat v2)) = true.
Proof.
  apply (edge_solid_invariant 3 [[8; 1; 3]; [8; 9; 1]]%nat [8; 9; 1]%nat 9%nat).
  - lia.
  - vm_compute. reflexivity.
  - apply list_elem_of_In. simpl. auto.
  - apply list_elem_of_In. simpl. auto.
Defined.

(** ** The manifold invariant *)

(** C3: for every bit-pattern p in 0..255 the sides of the triangles of the
    entry for p can be formed, and every side that does not occur exactly
    twice among them joins two cube edges whose doubled midpoints are at
    squared distance 2 or 4; sides occurring exactly twice are subject to
    no condition. *)
Theorem manifold_invariant (p : Z) (faces : list (list nat)) :
  0 ≤ p ≤ 255 →
  cases_get p = Some faces →
  ∃ pairs,
    edge_pairs faces = Some pairs
    ∧ ∀ pair, pair ∈ pairs → occurrences pair pairs ≠ 2%nat → on_boundary pair.
Proof.
  intros Hp Hfaces.
  pose proof (validator_patterns test2_bits p test2_passes Hp) as Hcheck.
  apply test2_bits_Some in Hcheck as (faces' & pairs & Hfaces' & Hpairs & Hall).
  assert (faces' = faces) as -> by congruence.
  exists pairs. split; [exact Hpairs |].
  intros pair Hin Hocc. destruct (Hall pair Hin) as [Htwice | Hgeom].
  - contradiction.
  - apply on_boundary_b_sound, Hgeom.
Qed.

Lemma manifold_invariant_witness :
  ∃ pairs,
    edge_pairs [[8; 0; 3]]%nat = Some pairs
    ∧ ∀ pair, pair ∈ pairs → occurrences pair pairs ≠ 2%nat → on_boundary pair.
Proof.
  apply (manifold_invariant 1 [[8; 0; 3]]%nat).
  - lia.
  - vm_compute. reflexivity.
Defined.

(** * Further properties *)

(** ** Round trips between bit-patterns and corner lists *)

Lemma testbit_verts_to_bits_bits_to_verts (n m : Z) :
  0 ≤ m →
  Z.testbit (verts_to_bits (bits_to_verts n)) m = Z.testbit (n `mod` 2 ^ 8) m.
Proof.
  intros Hm. rewrite <- (Z2Nat.id m Hm).
  rewrite verts_to_bits_testbit by apply NoDup_bits_to_verts.
  destruct (decide (Z.to_nat m < 8)%nat) as [Hlt | Hge].
  - rewrite Z.mod_pow2_bits_low by lia.
    destruct (Z.testbit n (Z.of_nat (Z.to_nat m))) eqn:Hbit.
    + apply bool_decide_eq_true_2, elem_of_bits_to_verts. auto.
    + apply bool_decide_eq_false_2. rewrite elem_of_bits_to_verts.
      intros [_ H]. congruence.
  - rewrite Z.mod_pow2_bits_high by lia.
    apply bool_decide_eq_false_2. rewrite elem_of_bits_to_verts. tauto.
Qed.

(** X1: reading the corners of a bit-pattern and summing them again keeps
    the low eight bits of the pattern, so it gives the pattern back when
    the pattern is in 0..255. *)
Theorem verts_to_bits_bits_to_verts (n : Z) :
  verts_to_bits (bits_to_verts n) = n `mod` 256
  ∧ (0 ≤ n ≤ 255 → verts_to_bits (bits_to_verts n) = n).
Proof.
  assert (H : verts_to_bits (bits_to_verts n) = n `mod` 256).
  { apply Z.bits_inj'. intros m Hm. apply testbit_verts_to_bits_bits_to_verts, Hm. }
  split; [exact H |]. intros Hn. rewrite H. apply Z.mod_small. lia.
Qed.

Lemma StronglySorted_filter_lt (P : nat → Prop) `{∀ x, Decision (P x)} (l : list nat) :
  StronglySorted lt l → StronglySorted lt (filter P l).
Proof.
  induction 1 as [| x l Hl IH Hx].
  - constructor.
  - rewrite filter_cons. destruct (decide (P x)); [| exact IH].
    constructor; [exact IH |]. apply Forall_forall. intros y Hy.
    apply list_elem_of_filter in Hy as [_ Hy]. rewrite Forall_forall in Hx. auto.
Qed.

Lemma StronglySorted_seq (start len : nat) : StronglySorted lt (seq start len).
Proof.
  revert start. induction len as [| len IH]; intros start; simpl.
  - constructor.
  - constructor; [apply IH |]. apply Forall_forall. intros y Hy.
    apply elem_of_seq in Hy. lia.
Qed.

Lemma bits_to_verts_sorted (n : Z) : StronglySorted lt (bits_to_verts n).
Proof. unfold bits_to_verts, range. apply StronglySorted_filter_lt, StronglySorted_seq. Qed.

(** X2: [bits_to_verts] lists corners below 8 in increasing order, without
    repeats; and on the sum of distinct corners below 8 it gives these
    corners back, in increasing order: the same list if the corners were
    already increasing. *)
Theorem bits_to_verts_round_trip :
  (∀ n, StronglySorted lt (bits_to_verts n) ∧ NoDup (bits_to_verts n)
        ∧ Forall (λ v, (v < 8)%nat) (bits_to_verts n))
  ∧ (∀ vs, NoDup vs → Forall (λ v, (v < 8)%nat) vs →
        bits_to_verts (verts_to_bits vs) ≡ₚ vs)
  ∧ (∀ vs, StronglySorted lt vs → Forall (λ v, (v < 8)%nat) vs →
        bits_to_verts (verts_to_bits vs) = vs).
Proof.
  split; [| split].
  - intros n. split; [apply bits_to_verts_sorted |].
    split; [apply NoDup_bits_to_verts | apply bits_to_verts_lt].
  - apply bits_to_verts_verts_to_bits.
  - intros vs Hsorted Hlt.
    assert (Hnd : NoDup vs).
    { clear Hlt. induction Hsorted as [| x l Hl IH Hx]; constructor; [| exact IH].
      intros Hin. rewrite Forall_forall in Hx. specialize (Hx x Hin). lia. }
    apply (StronglySorted_unique_strong lt).
    + intros x y _ _ Hxy Hyx. lia.
    + apply bits_to_verts_sorted.
    + exact Hsorted.
    + apply bits_to_verts_verts_to_bits; assumption.
Qed.

Lemma bits_to_verts_round_trip_witness :
  bits_to_verts (verts_to_bits [5; 0; 2]%nat) ≡ₚ [5; 0; 2]%nat
  ∧ bits_to_verts (verts_to_bits [0; 2; 5]%nat) = [0; 2; 5]%nat.
Proof.
  split.
  - apply (proj1 (proj2 bits_to_verts_round_trip)); by_evaluation.
  - apply (proj2 (proj2 bits_to_verts_round_trip)).
    + repeat constructor; lia.
    + by_evaluation.
Defined.

(** ** When [bits_apply] raises *)

(** X3: [bits_apply(op, n)] raises exactly when some solid corner of [n]
    is not an index of [op]; a list of length 8 or more never makes it
    raise, and on the pattern 0 it returns 0 whatever [op] is. *)
Theorem bits_apply_raises_iff (op : list nat) (n : Z) :
  (bits_apply op n = None ↔ ∃ v, v ∈ bits_to_verts n ∧ (length op ≤ v)%nat)
  ∧ ((8 ≤ length op)%nat → is_Some (bits_apply op n))
  ∧ bits_apply op 0 = Some 0.
Proof.
  assert (Hnone : bits_apply op n = None ↔ ∃ v, v ∈ bits_to_verts n ∧ (length op ≤ v)%nat).
  { unfold bits_apply. split.
    - intros H. destruct (mapM (λ v, op !! v) (bits_to_verts n)) as [vs|] eqn:Hm;
        [discriminate |].
      apply mapM_None_1, Exists_exists in Hm as (v & Hv & Hl).
      exists v. split; [exact Hv |]. apply lookup_ge_None, Hl.
    - intros (v & Hv & Hl).
      rewrite (mapM_None_2 (λ v, op !! v) (bits_to_verts n)); [reflexivity |].
      apply Exists_exists. exists v. split; [exact Hv |]. apply lookup_ge_None, Hl. }
  split; [exact Hnone |]. split; [| reflexivity].
  intros Hlen. apply not_eq_None_Some. intros Hb.
  apply Hnone in Hb as (v & Hv & Hl). apply elem_of_bits_to_verts in Hv. lia.
Qed.

Lemma bits_apply_raises_iff_witness :
  is_Some (bits_apply [7; 6; 5; 4; 3; 2; 1; 0; 9]%nat 200).
Proof.
  apply (proj1 (proj2 (bits_apply_raises_iff [7; 6; 5; 4; 3; 2; 1; 0; 9]%nat 200))).
  simpl. lia.
Defined.

(** ** What [bits_apply] does to the corners *)

(** A permutation of the corners reaches every corner. *)
Lemma perm_Permutation (op : list nat) : is_perm op → op ≡ₚ range 8.
Proof.
  intros (Hlen & Hnd & Hlt). apply submseteq_length_Permutation.
  - apply NoDup_submseteq; [exact Hnd |]. intros w Hw.
    rewrite Forall_forall in Hlt. apply elem_of_range, Hlt, Hw.
  - rewrite Hlen. reflexivity.
Qed.

Lemma perm_surj (op : list nat) (w : nat) :
  is_perm op → (w < 8)%nat → ∃ v, (v < 8)%nat ∧ image op v = w.
Proof.
  intros Hop Hw. pose proof (perm_Permutation op Hop) as Hperm.
  assert (Hin : w ∈ op) by (rewrite Hperm; apply elem_of_range, Hw).
  apply list_elem_of_lookup in Hin as [v Hv]. exists v.
  assert (Hlt : (v < 8)%nat).
  { apply lookup_lt_Some in Hv. destruct Hop as [Hlen _]. lia. }
  split; [exact Hlt |]. unfold image. rewrite Hv. reflexivity.
Qed.

(** Corner [op[v]] is solid after [bits_apply] exactly when corner [v] was
    solid before. *)
Lemma bits_apply_testbit (op : list nat) (n m : Z) (v : nat) :
  is_perm op → bits_apply op n = Some m → (v < 8)%nat →
  Z.testbit m (Z.of_nat (image op v)) = Z.testbit n (Z.of_nat v).
Proof.
  intros Hop Hm Hv.
  destruct (bits_to_verts_bits_apply op n Hop) as (m' & Hm' & Hverts).
  assert (m' = m) as -> by congruence.
  assert (Hiff : image op v ∈ bits_to_verts m ↔ v ∈ bits_to_verts n).
  { rewrite Hverts, list_elem_of_fmap. split.
    - intros (u & Heq & Hu). pose proof Hu as Hu'.
      apply elem_of_bits_to_verts in Hu' as [Hu' _].
      apply (image_inj op v u Hop Hv Hu') in Heq as ->. exact Hu.
    - intros Hin. exists v. auto. }
  rewrite !elem_of_bits_to_verts in Hiff.
  pose proof (image_lt op v Hop Hv) as Hlt.
  destruct (Z.testbit m (Z.of_nat (image op v))), (Z.testbit n (Z.of_nat v));
    try reflexivity; exfalso; intuition congruence.
Qed.

(** The result of [bits_apply] with a permutation is a bit-pattern in
    0..255. *)
Lemma bits_apply_range (op : list nat) (n m : Z) :
  is_perm op → bits_apply op n = Some m → 0 ≤ m ≤ 255.
Proof.
  intros Hop Hm.
  destruct (bits_to_verts_bits_apply op n Hop) as (m' & Hm' & Hverts).
  assert (m' = m) as -> by congruence.
  rewrite bits_apply_Some in Hm by apply Hop. injection Hm as Hm.
  rewrite <- (verts_to_bits_Permutation _ _ Hverts) in Hm.
  assert (Hmod : verts_to_bits (bits_to_verts m) = m `mod` 256).
  { apply Z.bits_inj'. intros i Hi. apply testbit_verts_to_bits_bits_to_verts, Hi. }
  rewrite Hmod in Hm. pose proof (Z.mod_pos_bound m 256). lia.
Qed.

(** In 0..255, complementing a bit-pattern flips its eight low bits. *)
Lemma testbit_complement (n : Z) (v : nat) :
  0 ≤ n ≤ 255 → (v < 8)%nat →
  Z.testbit (255 - n) (Z.of_nat v) = negb (Z.testbit n (Z.of_nat v)).
Proof.
  intros Hn Hv. revert v Hv.
  assert (H : Forall (λ v, Z.testbit (255 - n) (Z.of_nat v)
                           = negb (Z.testbit n (Z.of_nat v))) (range 8)).
  { revert n Hn. apply forall_patterns. by_evaluation. }
  rewrite Forall_forall in H. intros v Hv. apply H, elem_of_range, Hv.
Qed.

Lemma testbit_high (n i : Z) : 0 ≤ n ≤ 255 → 8 ≤ i → Z.testbit n i = false.
Proof.
  intros Hn Hi. rewrite <- (Z.mod_small n (2 ^ 8)) by lia.
  apply Z.mod_pow2_bits_high. lia.
Qed.

(** X4: for a permutation [op] of the corners, bit [op[v]] of
    [bits_apply(op, n)] is bit [v] of [n], for each corner v, and the
    result is a bit-pattern in 0..255. *)
Theorem bits_apply_moves_corners (op : list nat) (n : Z) :
  is_perm op →
  ∃ m, bits_apply op n = Some m
    ∧ 0 ≤ m ≤ 255
    ∧ ∀ v w, (v < 8)%nat → op !! v = Some w →
        Z.testbit m (Z.of_nat w) = Z.testbit n (Z.of_nat v).
Proof.
  intros Hop. destruct (bits_to_verts_bits_apply op n Hop) as (m & Hm & _).
  exists m. split; [exact Hm |]. split; [exact (bits_apply_range op n m Hop Hm) |].
  intros v w Hv Hw. rewrite <- (bits_apply_testbit op n m v Hop Hm Hv).
  unfold image. rewrite Hw. reflexivity.
Qed.

Lemma bits_apply_moves_corners_witness :
  ∃ m, bits_apply ROTATE_2 77 = Some m
    ∧ 0 ≤ m ≤ 255
    ∧ ∀ v w, (v < 8)%nat → ROTATE_2 !! v = Some w →
        Z.testbit m (Z.of_nat w) = Z.testbit 77 (Z.of_nat v).
Proof. apply (bits_apply_moves_corners ROTATE_2 77). by_evaluation. Defined.

(** X5: a permutation of the corners commutes with the inversion of the
    closure loop: applying it to the complement [255 - n] of a bit-pattern
    in 0..255 gives the complement of what it gives on [n]. *)
Theorem bits_apply_complement (op : list nat) (n : Z) :
  is_perm op → 0 ≤ n ≤ 255 →
  ∃ m, bits_apply op n = Some m ∧ bits_apply op (255 - n) = Some (255 - m).
Proof.
  intros Hop Hn.
  destruct (bits_to_verts_bits_apply op n Hop) as (m & Hm & _).
  destruct (bits_to_verts_bits_apply op (255 - n) Hop) as (m' & Hm' & _).
  exists m. split; [exact Hm |]. rewrite Hm'. f_equal.
  pose proof (bits_apply_range op n m Hop Hm) as Hrm.
  pose proof (bits_apply_range op _ m' Hop Hm') as Hrm'.
  apply Z.bits_inj'. intros i Hi.
  destruct (decide (i < 8)) as [Hlt | Hge].
  - rewrite <- (Z2Nat.id i Hi).
    destruct (perm_surj op (Z.to_nat i) Hop) as (v & Hv & <-); [lia |].
    rewrite (bits_apply_testbit op _ m' v Hop Hm' Hv).
    rewrite testbit_complement by assumption.
    rewrite testbit_complement by (exact Hrm || apply image_lt; assumption).
    rewrite (bits_apply_testbit op n m v Hop Hm Hv). reflexivity.
  - rewrite !testbit_high by lia. reflexivity.
Qed.

Lemma bits_apply_complement_witness :
  ∃ m, bits_apply ROTATE_3 5 = Some m ∧ bits_apply ROTATE_3 (255 - 5) = Some (255 - m).
Proof. apply (bits_apply_complement ROTATE_3 5); [by_evaluation | lia]. Defined.

(** ** How [compose] composes *)

Lemma corner_map_image_lt (op : list nat) (v : nat) :
  corner_map op → (v < 8)%nat → (image op v < 8)%nat.
Proof.
  intros [Hlen Hlt] Hv. rewrite Forall_forall in Hlt. apply Hlt.
  apply list_elem_of_lookup. exists v. apply perm_lookup; assumption.
Qed.

(** A list of length 8 is the list of its eight entries. *)
Lemma length8_images (op : list nat) : length op = 8%nat → op = image op <$> range 8.
Proof.
  intros Hlen. apply list_eq. intros v. unfold range.
  rewrite list_lookup_fmap. destruct (decide (v < 8)%nat) as [Hv | Hv].
  - rewrite lookup_seq_lt by exact Hv. simpl. apply perm_lookup; assumption.
  - rewrite lookup_seq_ge by lia. apply lookup_ge_None. lia.
Qed.

Lemma length8_eq (op1 op2 : list nat) :
  length op1 = 8%nat → length op2 = 8%nat →
  (∀ v, (v < 8)%nat → image op1 v = image op2 v) → op1 = op2.
Proof.
  intros H1 H2 Heq. rewrite (length8_images op1 H1), (length8_images op2 H2).
  apply Forall_fmap_ext_1, Forall_forall. intros v Hv.
  unfold range in Hv. apply elem_of_seq in Hv. apply Heq. lia.
Qed.

Lemma compose2_corner_map (op1 op2 : list nat) :
  corner_map op1 → corner_map op2 →
  ∃ c, compose2 op1 op2 = Some c ∧ corner_map c
       ∧ ∀ v, (v < 8)%nat → image c v = image op2 (image op1 v).
Proof.
  intros H1 H2.
  exists ((λ v, image op2 (image op1 v)) <$> range 8). split; [| split].
  - unfold compose2. apply mapM_Some.
    apply Forall2_fmap_r, Forall_Forall2_diag, Forall_forall.
    intros v Hv. unfold range in Hv. apply elem_of_seq in Hv.
    rewrite (perm_lookup op1 v) by (apply H1 || lia). cbn [mbind option_bind].
    apply perm_lookup; [apply H2 |]. apply corner_map_image_lt; [exact H1 | lia].
  - split; [rewrite length_fmap; reflexivity |].
    apply Forall_fmap, Forall_forall. intros v Hv. unfold range in Hv.
    apply elem_of_seq in Hv. simpl.
    apply corner_map_image_lt; [exact H2 |]. apply corner_map_image_lt; [exact H1 | lia].
  - intros v Hv. exact (image_fmap_range (λ v, image op2 (image op1 v)) v Hv).
Qed.

Lemma identity_corner_map : corner_map identity.
Proof. split; [reflexivity |]. repeat constructor. Qed.

Lemma image_identity (v : nat) : (v < 8)%nat → image identity v = v.
Proof.
  intros Hv. do 8 (destruct v as [| v]; [reflexivity |]). lia.
Qed.

(** The variadic [compose] of corner maps follows them from left to
    right. *)
Lemma compose_follow (ops : list (list nat)) :
  Forall corner_map ops →
  ∃ c, compose ops = Some c ∧ corner_map c
       ∧ ∀ v, (v < 8)%nat → image c v = follow ops v.
Proof.
  induction 1 as [| op1 rest Hop1 Hrest IH].
  - exists identity. split; [reflexivity |]. split; [exact identity_corner_map |].
    intros v Hv. apply image_identity, Hv.
  - destruct IH as (r & Hr & Hcr & Hir).
    destruct (compose2_corner_map op1 r Hop1 Hcr) as (c & Hc & Hcc & Hic).
    destruct rest as [| op2 [| op3 rest]].
    + exists op1. split; [reflexivity |]. split; [exact Hop1 |]. reflexivity.
    + injection Hr as <-. exists c. split; [exact Hc |]. split; [exact Hcc |].
      intros v Hv. rewrite Hic by exact Hv. reflexivity.
    + exists c. split; [rewrite compose_cons, Hr; exact Hc |]. split; [exact Hcc |].
      intros v Hv. rewrite Hic, Hir by (exact Hv || apply corner_map_image_lt; assumption).
      reflexivity.
Qed.

Lemma follow_app (ops1 ops2 : list (list nat)) (v : nat) :
  follow (ops1 ++ ops2) v = follow ops2 (follow ops1 v).
Proof. unfold follow. apply foldl_app. Qed.

(** X6: composing corner maps gives the corner map that sends each corner
    v to the corner reached by following the maps from left to right. *)
Theorem compose_left_to_right (ops : list (list nat)) :
  Forall corner_map ops →
  ∃ c, compose ops = Some c ∧ corner_map c
       ∧ ∀ v, (v < 8)%nat → c !! v = Some (follow ops v).
Proof.
  intros Hops. destruct (compose_follow ops Hops) as (c & Hc & Hcc & Hic).
  exists c. split; [exact Hc |]. split; [exact Hcc |].
  intros v Hv. rewrite (perm_lookup c v) by (apply Hcc || exact Hv).
  rewrite Hic by exact Hv. reflexivity.
Qed.

Lemma compose_left_to_right_witness :
  ∃ c, compose [ROTATE_1; REFLECT; ROTATE_3] = Some c ∧ corner_map c
       ∧ ∀ v, (v < 8)%nat → c !! v = Some (follow [ROTATE_1; REFLECT; ROTATE_3] v).
Proof.
  apply (compose_left_to_right [ROTATE_1; REFLECT; ROTATE_3]).
  repeat constructor.
Defined.

Lemma compose_split (ops1 ops2 : list (list nat)) :
  Forall corner_map ops1 → Forall corner_map ops2 →
  ∃ a b c, compose ops1 = Some a ∧ compose ops2 = Some b
    ∧ compose [a; b] = Some c ∧ compose (ops1 ++ ops2) = Some c.
Proof.
  intros H1 H2.
  destruct (compose_follow ops1 H1) as (a & Ha & Hca & Hia).
  destruct (compose_follow ops2 H2) as (b & Hb & Hcb & Hib).
  destruct (compose2_corner_map a b Hca Hcb) as (c & Hc & Hcc & Hic).
  assert (H12 : Forall corner_map (ops1 ++ ops2)) by (apply Forall_app; auto).
  destruct (compose_follow _ H12) as (c' & Hc' & Hcc' & Hic').
  exists a, b, c. split; [exact Ha |]. split; [exact Hb |]. split; [exact Hc |].
  rewrite Hc'. f_equal. apply length8_eq; [apply Hcc' | apply Hcc |].
  intros v Hv. rewrite Hic', Hic, follow_app, Hib, Hia
    by (exact Hv || apply corner_map_image_lt; assumption).
  reflexivity.
Qed.

(** X7: a composition of a list of corner maps can be split anywhere:
    composing the two parts and then composing the two results gives the
    composition of the whole list.  In particular [compose] is
    associative. *)
Theorem compose_app (ops1 ops2 : list (list nat)) :
  Forall corner_map ops1 → Forall corner_map ops2 →
  ∃ a b c, compose ops1 = Some a ∧ compose ops2 = Some b
    ∧ compose [a; b] = Some c ∧ compose (ops1 ++ ops2) = Some c.
Proof. apply compose_split. Qed.

Lemma compose_app_witness :
  ∃ a b c, compose [ROTATE_1; ROTATE_2] = Some a ∧ compose [ROTATE_3] = Some b
    ∧ compose [a; b] = Some c
    ∧ compose ([ROTATE_1; ROTATE_2] ++ [ROTATE_3]) = Some c.
Proof.
  apply (compose_app [ROTATE_1; ROTATE_2] [ROTATE_3]); repeat constructor.
Defined.

(** X8: the identity list is neutral for [compose] on corner maps, on both
    sides. *)
Theorem compose_identity (op : list nat) :
  corner_map op →
  compose [identity; op] = Some op ∧ compose [op; identity] = Some op.
Proof.
  intros Hop.
  destruct (compose2_corner_map identity op identity_corner_map Hop) as (c & Hc & Hcc & Hic).
  destruct (compose2_corner_map op identity Hop identity_corner_map) as (d & Hd & Hcd & Hid).
  split.
  - change (compose2 identity op = Some op). rewrite Hc. f_equal.
    apply length8_eq; [apply Hcc | apply Hop |].
    intros v Hv. rewrite Hic, image_identity by exact Hv. reflexivity.
  - change (compose2 op identity = Some op). rewrite Hd. f_equal.
    apply length8_eq; [apply Hcd | apply Hop |].
    intros v Hv. rewrite Hid by exact Hv.
    apply image_identity, corner_map_image_lt; assumption.
Qed.

Lemma compose_identity_witness :
  compose [identity; REFLECT] = Some REFLECT ∧ compose [REFLECT; identity] = Some REFLECT.
Proof. apply (compose_identity REFLECT). repeat constructor. Defined.

(** X9: powers add up: [pow(op, m + n)] is the composition of
    [pow(op, m)] and [pow(op, n)], for a corner map [op]. *)
Theorem pow_add (op : list nat) (m n : nat) :
  corner_map op →
  ∃ a b c, pow op m = Some a ∧ pow op n = Some b
    ∧ compose [a; b] = Some c ∧ pow op (m + n) = Some c.
Proof.
  intros Hop. unfold pow. rewrite replicate_add.
  apply compose_split; apply Forall_replicate; exact Hop.
Qed.

Lemma pow_add_witness :
  ∃ a b c, pow ROTATE_2 3 = Some a ∧ pow ROTATE_2 2 = Some b
    ∧ compose [a; b] = Some c ∧ pow ROTATE_2 (3 + 2) = Some c.
Proof. apply (pow_add ROTATE_2 3 2). repeat constructor. Defined.

(** X10: the two-argument [compose] raises exactly when the first list has
    fewer than 8 entries or one of its first 8 entries is not an index of
    the second list; when it does not raise, the result has 8 entries,
    whatever the lengths of the arguments. *)
Theorem compose_two_raises_iff (op1 op2 : list nat) :
  (compose [op1; op2] = None ↔
     (length op1 < 8)%nat
     ∨ ∃ v w, (v < 8)%nat ∧ op1 !! v = Some w ∧ (length op2 ≤ w)%nat)
  ∧ (∀ c, compose [op1; op2] = Some c → length c = 8%nat).
Proof.
  change (compose [op1; op2]) with (compose2 op1 op2). unfold compose2. split.
  - rewrite mapM_None, Exists_exists. split.
    + intros (v & Hv & Hnone). unfold range in Hv. apply elem_of_seq in Hv.
      destruct (op1 !! v) as [w|] eqn:Hw; cbn [mbind option_bind] in Hnone.
      * right. exists v, w. split; [lia |]. split; [exact Hw |].
        apply lookup_ge_None, Hnone.
      * left. apply lookup_ge_None in Hw. lia.
    + intros [Hlen | (v & w & Hv & Hw & Hlen)].
      * exists 7%nat. split; [apply elem_of_range; lia |].
        rewrite (proj2 (lookup_ge_None op1 7)) by lia. reflexivity.
      * exists v. split; [apply elem_of_range, Hv |].
        rewrite Hw. cbn [mbind option_bind]. apply lookup_ge_None, Hlen.
  - intros c Hc. apply length_mapM in Hc. rewrite <- Hc. reflexivity.
Qed.

(** ** What [edge_apply] returns *)

Lemma edge_of_sym (a b : nat) : edge_of a b = edge_of b a.
Proof.
  unfold edge_of. f_equal. unfold frozenset. simpl. apply set_eq. intros x.
  rewrite !elem_of_union, !elem_of_singleton, elem_of_empty. tauto.
Qed.

Lemma edge_apply_Some (op : list nat) (e e' : nat) :
  edge_apply op e = Some e' ↔
  ∃ v1 v2 w1 w2, EDGES !! e = Some (v1, v2)
    ∧ op !! v1 = Some w1 ∧ op !! v2 = Some w2
    ∧ (EDGES !! e' = Some (w1, w2) ∨ EDGES !! e' = Some (w2, w1)).
Proof.
  unfold edge_apply. split.
  - destruct (EDGES !! e) as [[v1 v2]|]; cbn [mbind option_bind]; [| discriminate].
    destruct (op !! v1) as [w1|] eqn:H1; cbn [mbind option_bind]; [| discriminate].
    destruct (op !! v2) as [w2|] eqn:H2; cbn [mbind option_bind]; [| discriminate].
    intros He. exists v1, v2, w1, w2.
    split; [reflexivity |]. split; [exact H1 |]. split; [exact H2 |].
    apply edge_of_Some, He.
  - intros (v1 & v2 & w1 & w2 & -> & H1 & H2 & He). cbn [mbind option_bind].
    rewrite H1. cbn [mbind option_bind]. rewrite H2. cbn [mbind option_bind].
    apply edge_of_Some, He.
Qed.


Lemma edge_apply_edge_image (op : list nat) (e : nat) :
  symmetry op → (e < 12)%nat →
  edge_apply op e = Some (edge_image op e) ∧ (edge_image op e < 12)%nat.
Proof.
  intros Hop He. destruct (edge_apply_symmetry op e Hop He) as (e' & He' & Hlt).
  unfold edge_image. rewrite He'. auto.
Qed.

(** With different edges going to different edges when the entries of [op]
    are distinct. *)
Lemma edge_apply_inj (op : list nat) (e1 e2 e' : nat) :
  NoDup op → edge_apply op e1 = Some e' → edge_apply op e2 = Some e' → e1 = e2.
Proof.
  intros Hnd (v1 & v2 & w1 & w2 & He1 & Hw1 & Hw2 & He')%edge_apply_Some
             (u1 & u2 & x1 & x2 & He2 & Hx1 & Hx2 & He'')%edge_apply_Some.
  assert (Hends : (v1 = u1 ∧ v2 = u2) ∨ (v1 = u2 ∧ v2 = u1)).
  { destruct He' as [He' | He'], He'' as [He'' | He''];
      rewrite He' in He''; injection He'' as <- <-;
      [left | right | right | left]; split; eapply (NoDup_lookup op); eauto. }
  assert (H1 : edge_of v1 v2 = Some e1) by (apply edge_of_Some; auto).
  assert (H2 : edge_of u1 u2 = Some e2) by (apply edge_of_Some; auto).
  destruct Hends as [[-> ->] | [-> ->]]; [| rewrite edge_of_sym in H1]; congruence.
Qed.

Lemma image_lookup (op : list nat) (v w : nat) : op !! v = Some w → image op v = w.
Proof. intros H. unfold image. rewrite H. reflexivity. Qed.

(** The edge map of a composition is the composition of the edge maps. *)
Lemma edge_image_compose (op1 op2 c : list nat) (e : nat) :
  symmetry op1 → symmetry op2 → compose2 op1 op2 = Some c → (e < 12)%nat →
  edge_image c e = edge_image op2 (edge_image op1 e).
Proof.
  intros H1 H2 Hc He.
  destruct (compose2_symmetry op1 op2 H1 H2) as (c' & Hc' & Hsym).
  assert (c' = c) as -> by congruence.
  destruct (compose2_perm op1 op2 (proj1 H1) (proj1 H2)) as (c' & Hc'' & _ & Him).
  assert (c' = c) as -> by congruence.
  destruct (edge_apply_edge_image op1 e H1 He) as [Ha1 Hlt1].
  destruct (edge_apply_edge_image op2 _ H2 Hlt1) as [Ha2 _].
  destruct (edge_apply_edge_image c e Hsym He) as [Hac _].
  apply edge_apply_Some in Ha1 as (v1 & v2 & w1 & w2 & He1 & Hw1 & Hw2 & Hmid).
  apply edge_apply_Some in Ha2 as (a & b & x & y & Hab & Hx & Hy & Hend).
  apply edge_apply_Some in Hac as (v1' & v2' & z1 & z2 & He1' & Hz1 & Hz2 & Hc12).
  assert (v1' = v1 ∧ v2' = v2) as [-> ->] by (split; congruence).
  destruct (EDGES_ends_lt _ _ _ He1) as [Hv1 Hv2].
  assert (Hz1' : z1 = image op2 w1).
  { pose proof (Him v1 Hv1) as H.
    rewrite (image_lookup _ _ _ Hz1), (image_lookup _ _ _ Hw1) in H. exact H. }
  assert (Hz2' : z2 = image op2 w2).
  { pose proof (Him v2 Hv2) as H.
    rewrite (image_lookup _ _ _ Hz2), (image_lookup _ _ _ Hw2) in H. exact H. }
  assert (Hxy : (x = image op2 w1 ∧ y = image op2 w2) ∨ (x = image op2 w2 ∧ y = image op2 w1)).
  { destruct Hmid as [Hmid | Hmid]; rewrite Hmid in Hab; injection Hab as <- <-;
      [left | right];
      rewrite (image_lookup _ _ _ Hx), (image_lookup _ _ _ Hy); auto. }
  assert (Hz : edge_of z1 z2 = Some (edge_image c e)) by (apply edge_of_Some; exact Hc12).
  assert (Hxy' : edge_of x y = Some (edge_image op2 (edge_image op1 e)))
    by (apply edge_of_Some; exact Hend).
  subst z1 z2.
  destruct Hxy as [[-> ->] | [-> ->]]; [| rewrite edge_of_sym in Hxy']; congruence.
Qed.

(** X12: the edge map of a symmetry is one to one on the twelve edges and
    the edge map of the identity changes nothing; the edge map of a
    composition of two symmetries is the edge map of the first followed by
    the edge map of the second. *)
Theorem edge_apply_action :
  (∀ e, (e < 12)%nat → edge_apply identity e = Some e)
  ∧ (∀ op e1 e2 e', NoDup op →
       edge_apply op e1 = Some e' → edge_apply op e2 = Some e' → e1 = e2)
  ∧ (∀ op1 op2 c e, symmetry op1 → symmetry op2 →
       compose [op1; op2] = Some c → (e < 12)%nat →
       ∃ e1 e2, edge_apply op1 e = Some e1 ∧ edge_apply op2 e1 = Some e2
         ∧ edge_apply c e = Some e2).
Proof.
  split; [| split].
  - intros e He. revert e He.
    assert (H : Forall (λ e, edge_apply identity e = Some e) (seq 0 12)) by by_evaluation.
    rewrite Forall_forall in H. intros e He. apply H, elem_of_seq. lia.
  - apply edge_apply_inj.
  - intros op1 op2 c e H1 H2 Hc He. change (compose2 op1 op2 = Some c) in Hc.
    destruct (compose2_symmetry op1 op2 H1 H2) as (c' & Hc' & Hsym).
    assert (c' = c) as -> by congruence.
    destruct (edge_apply_edge_image op1 e H1 He) as [Ha1 Hlt1].
    destruct (edge_apply_edge_image op2 _ H2 Hlt1) as [Ha2 _].
    destruct (edge_apply_edge_image c e Hsym He) as [Hac _].
    exists (edge_image op1 e), (edge_image op2 (edge_image op1 e)).
    split; [exact Ha1 |]. split; [exact Ha2 |].
    rewrite Hac. f_equal. apply edge_image_compose; assumption.
Qed.

Lemma edge_apply_action_witness :
  edge_apply identity 7 = Some 7%nat
  ∧ ∃ e1 e2, edge_apply ROTATE_1 4 = Some e1 ∧ edge_apply REFLECT e1 = Some e2
      ∧ edge_apply [0; 3; 2; 1; 4; 7; 6; 5]%nat 4 = Some e2.
Proof.
  split.
  - apply (proj1 edge_apply_action 7%nat). lia.
  - apply (proj2 (proj2 edge_apply_action) ROTATE_1 REFLECT).
    + by_evaluation.
    + by_evaluation.
    + vm_compute. reflexivity.
    + lia.
Defined.

(** ** What [faces_apply] does to triangle lists *)

Lemma face_apply_shape (op : list nat) (face face' : list nat) (flip : bool) :
  face_apply op face flip = Some face' →
  length face' = length face ∧ Forall (λ e, (e < 12)%nat) face'.
Proof.
  unfold face_apply.
  destruct (mapM (edge_apply op) face) as [edges|] eqn:Hm; cbn [mbind option_bind];
    [| discriminate].
  intros [= <-].
  assert (Hedges : length edges = length face ∧ Forall (λ e, (e < 12)%nat) edges).
  { split; [symmetry; exact (length_mapM _ _ _ Hm) |].
    apply mapM_Some_1 in Hm. apply Forall_forall. intros e' He'.
    apply list_elem_of_lookup in He' as [i Hi].
    destruct (Forall2_lookup_r _ _ _ _ _ Hm Hi) as (e & _ & He).
    apply edge_apply_Some in He as (_ & _ & w1 & w2 & _ & _ & _ & [He | He]);
      apply lookup_lt_Some in He; exact He. }
  destruct Hedges as [Hlen Hlt]. destruct flip.
  - rewrite length_reverse. split; [exact Hlen |]. apply Forall_reverse, Hlt.
  - auto.
Qed.

(** X13: when [faces_apply] returns, the result has as many faces as the
    argument, each with as many edges as the face it comes from (triangles
    stay triangles), and every edge of the result is an edge index below
    12. *)
Theorem faces_apply_shape (op : list nat) (faces faces' : list (list nat)) (flip : bool) :
  faces_apply op faces flip = Some faces' →
  Forall2 (λ face face', length face' = length face) faces faces'
  ∧ Forall (Forall (λ e, (e < 12)%nat)) faces'.
Proof.
  unfold faces_apply. intros Hm%mapM_Some_1. split.
  - eapply Forall2_impl; [exact Hm |]. intros face face' Hf.
    apply (face_apply_shape op face face' flip Hf).
  - apply Forall_forall. intros face' Hin.
    apply list_elem_of_lookup in Hin as [i Hi].
    destruct (Forall2_lookup_r _ _ _ _ _ Hm Hi) as (face & _ & Hf).
    apply (face_apply_shape op face face' flip Hf).
Qed.

Lemma faces_apply_shape_witness :
  Forall2 (λ face face', length face' = length face)
    [[8; 1; 3]; [8; 9; 1]]%nat [[11; 10; 3]; [10; 1; 3]]%nat
  ∧ Forall (Forall (λ e, (e < 12)%nat)) [[11; 10; 3]; [10; 1; 3]]%nat.
Proof.
  apply (faces_apply_shape ROTATE_2 [[8; 1; 3]; [8; 9; 1]]%nat _ true).
  vm_compute. reflexivity.
Defined.

Lemma face_apply_face_image (op : list nat) (face : list nat) (flip : bool) :
  symmetry op → Forall (λ e, (e < 12)%nat) face →
  face_apply op face flip = Some (face_image op flip face)
  ∧ Forall (λ e, (e < 12)%nat) (face_image op flip face).
Proof.
  intros Hop Hface.
  assert (Hm : mapM (edge_apply op) face = Some (edge_image op <$> face)).
  { apply mapM_Some, Forall2_fmap_r, Forall_Forall2_diag.
    eapply Forall_impl; [exact Hface |]. intros e He.
    apply (edge_apply_edge_image op e Hop He). }
  assert (Hlt : Forall (λ e, (e < 12)%nat) (edge_image op <$> face)).
  { apply Forall_fmap. eapply Forall_impl; [exact Hface |]. intros e He.
    apply (edge_apply_edge_image op e Hop He). }
  unfold face_apply, face_image. rewrite Hm. cbn [mbind option_bind].
  split; [reflexivity |]. destruct flip; [apply Forall_reverse |]; exact Hlt.
Qed.

Lemma faces_apply_face_image (op : list nat) (faces : list (list nat)) (flip : bool) :
  symmetry op → Forall (Forall (λ e, (e < 12)%nat)) faces →
  faces_apply op faces flip = Some (face_image op flip <$> faces)
  ∧ Forall (Forall (λ e, (e < 12)%nat)) (face_image op flip <$> faces).
Proof.
  intros Hop Hfaces. split.
  - unfold faces_apply. apply mapM_Some, Forall2_fmap_r, Forall_Forall2_diag.
    eapply Forall_impl; [exact Hfaces |]. intros face Hface.
    apply (face_apply_face_image op face flip Hop Hface).
  - apply Forall_fmap. eapply Forall_impl; [exact Hfaces |]. intros face Hface.
    apply (face_apply_face_image op face flip Hop Hface).
Qed.

Lemma face_image_compose (op1 op2 c : list nat) (flip1 flip2 : bool) (face : list nat) :
  symmetry op1 → symmetry op2 → compose2 op1 op2 = Some c →
  Forall (λ e, (e < 12)%nat) face →
  face_image op2 flip2 (face_image op1 flip1 face) = face_image c (xorb flip1 flip2) face.
Proof.
  intros H1 H2 Hc Hface.
  assert (Hedges : edge_image op2 <$> (edge_image op1 <$> face) = edge_image c <$> face).
  { rewrite <- list_fmap_compose. apply Forall_fmap_ext_1.
    eapply Forall_impl; [exact Hface |]. intros e He. simpl.
    symmetry. apply edge_image_compose; assumption. }
  unfold face_image. destruct flip1, flip2; simpl;
    rewrite ?fmap_reverse, ?reverse_involutive, Hedges; reflexivity.
Qed.

(** X14: transforming a triangle list by a symmetry and then by a second one
    is transforming it by their composition, with the two flips combined by
    exclusive or: two flips cancel. *)
Theorem faces_apply_compose (op1 op2 c : list nat) (flip1 flip2 : bool)
    (faces : list (list nat)) :
  symmetry op1 → symmetry op2 → compose [op1; op2] = Some c →
  Forall (Forall (λ e, (e < 12)%nat)) faces →
  ∃ faces1 faces2,
    faces_apply op1 faces flip1 = Some faces1
    ∧ faces_apply op2 faces1 flip2 = Some faces2
    ∧ faces_apply c faces (xorb flip1 flip2) = Some faces2.
Proof.
  intros H1 H2 Hc Hfaces. change (compose2 op1 op2 = Some c) in Hc.
  destruct (compose2_symmetry op1 op2 H1 H2) as (c' & Hc' & Hsym).
  assert (c' = c) as -> by congruence.
  destruct (faces_apply_face_image op1 faces flip1 H1 Hfaces) as [Hf1 Hv1].
  destruct (faces_apply_face_image op2 _ flip2 H2 Hv1) as [Hf2 _].
  destruct (faces_apply_face_image c faces (xorb flip1 flip2) Hsym Hfaces) as [Hfc _].
  eexists _, _. split; [exact Hf1 |]. split; [exact Hf2 |].
  rewrite Hfc. f_equal. rewrite <- list_fmap_compose. apply Forall_fmap_ext_1.
  eapply Forall_impl; [exact Hfaces |]. intros face Hface. simpl.
  symmetry. apply face_image_compose; assumption.
Qed.

Lemma faces_apply_compose_witness :
  ∃ faces1 faces2,
    faces_apply ROTATE_1 [[8; 0; 3]; [1; 10; 2]]%nat false = Some faces1
    ∧ faces_apply REFLECT faces1 true = Some faces2
    ∧ faces_apply [0; 3; 2; 1; 4; 7; 6; 5]%nat [[8; 0; 3]; [1; 10; 2]]%nat
        (xorb false true) = Some faces2.
Proof.
  apply (faces_apply_compose ROTATE_1 REFLECT).
  - by_evaluation.
  - by_evaluation.
  - vm_compute. reflexivity.
  - by_evaluation.
Defined.

(** ** What the finished table contains *)

(** X15: first write wins.  The innermost loop body never changes an entry
    that is already in the dict, so what the non-inverted pass has stored
    under a key is what the finished table holds under this key. *)
Theorem first_write_wins :
  (∀ op invert flip entry (tbl tbl' : gmap Z (list (list nat))) k v,
     tbl !! k = Some v → insert_case op invert flip entry tbl = Some tbl' →
     tbl' !! k = Some v)
  ∧ (∀ (tbl : gmap Z (list (list nat))) k v,
       closure_pass false ∅ = Some tbl → tbl !! k = Some v → cases_get k = Some v).
Proof.
  split; [intros op invert flip entry tbl tbl' k v; apply insert_case_keeps |].
  intros tbl k v Hpass Hk.
  pose proof cases_case_table as Hc. unfold cases in Hc.
  rewrite build_cases_passes, Hpass in Hc. cbn [mbind option_bind] in Hc.
  rewrite cases_get_case_table. exact (closure_pass_keeps _ _ _ _ _ Hk Hc).
Qed.

Lemma first_write_wins_witness :
  ({[ 253 := [] ]} : gmap Z (list (list nat))) !! 253 = Some [].
Proof.
  apply (proj1 first_write_wins ROTATE_1 true false (1, [[8; 0; 3]]%nat)
           {[ 253 := [] ]} {[ 253 := [] ]}).
  - apply lookup_singleton_eq.
  - vm_compute. reflexivity.
Defined.

(** X16: every hand-written case is in the finished table as written: the
    merged [BASE_CASES] holds the 15 base cases followed by the 4 inverse
    cases, under 19 distinct keys, and the finished table has each of them
    under its own key. *)
Theorem hand_written_cases_verbatim :
  BASE_CASES = BASE_CASES_literal ++ INVERSE_CASES
  ∧ NoDup (BASE_CASES.*1)
  ∧ ∀ bits faces, (bits, faces) ∈ BASE_CASES → cases_get bits = Some faces.
Proof.
  split; [vm_compute; reflexivity |]. split; [by_evaluation |].
  assert (H : Forall (λ entry, cases_get entry.1 = Some entry.2) BASE_CASES)
    by by_evaluation.
  rewrite Forall_forall in H. intros bits faces Hin. exact (H _ Hin).
Qed.

Lemma hand_written_cases_verbatim_witness :
  cases_get 177 = Some [[11; 6; 3]; [3; 6; 0]; [0; 6; 5]; [0; 5; 9]]%nat.
Proof.
  apply (proj2 (proj2 hand_written_cases_verbatim)). by_evaluation.
Defined.

(** X17: every entry of the finished table is a list of at most five
    triangles, each of three distinct edge indices below 12; and the entry
    is the empty list only for the bit-patterns 0 and 255. *)
Theorem table_entries_well_formed (p : Z) (faces : list (list nat)) :
  cases_get p = Some faces →
  well_formed_entry faces ∧ (faces = [] ↔ p = 0 ∨ p = 255).
Proof.
  rewrite cases_get_case_table. revert p faces.
  change (map_Forall (λ p faces, well_formed_entry faces ∧ (faces = [] ↔ p = 0 ∨ p = 255))
            case_table).
  unfold well_formed_entry. by_evaluation.
Qed.

Lemma table_entries_well_formed_witness :
  well_formed_entry [[8; 1; 3]; [8; 9; 1]]%nat
  ∧ ([[8; 1; 3]; [8; 9; 1]]%nat = [] ↔ 3 = 0 ∨ 3 = 255).
Proof. apply (table_entries_well_formed 3). vm_compute. reflexivity. Defined.

(** ** Why the operations keep the edge-solid invariant *)

(** X18: a permutation of the corners keeps the edge-solid invariant: if
    [edge_apply] takes an edge to an edge and [bits_apply] takes a
    bit-pattern to a bit-pattern, the new edge has exactly one solid end
    under the new pattern exactly when the old edge had exactly one under
    the old pattern; and so it is under the complement of the new pattern,
    the key of an inverted operation. *)
Theorem operations_keep_edge_solid (op : list nat) (n m : Z) (e e' v1 v2 w1 w2 : nat) :
  is_perm op →
  bits_apply op n = Some m → edge_apply op e = Some e' →
  EDGES !! e = Some (v1, v2) → EDGES !! e' = Some (w1, w2) →
  xorb (Z.testbit m (Z.of_nat w1)) (Z.testbit m (Z.of_nat w2))
    = xorb (Z.testbit n (Z.of_nat v1)) (Z.testbit n (Z.of_nat v2))
  ∧ xorb (Z.testbit (255 - m) (Z.of_nat w1)) (Z.testbit (255 - m) (Z.of_nat w2))
    = xorb (Z.testbit n (Z.of_nat v1)) (Z.testbit n (Z.of_nat v2)).
Proof.
  intros Hop Hm He Hv Hw.
  apply edge_apply_Some in He as (v1' & v2' & x1 & x2 & Hv' & Hx1 & Hx2 & Hw').
  assert (v1' = v1 ∧ v2' = v2) as [-> ->] by (split; congruence).
  destruct (EDGES_ends_lt _ _ _ Hv) as [Hv1 Hv2].
  destruct (EDGES_ends_lt _ _ _ Hw) as [Hw1 Hw2].
  pose proof (bits_apply_testbit op n m v1 Hop Hm Hv1) as H1.
  pose proof (bits_apply_testbit op n m v2 Hop Hm Hv2) as H2.
  rewrite (image_lookup _ _ _ Hx1) in H1. rewrite (image_lookup _ _ _ Hx2) in H2.
  pose proof (bits_apply_range op n m Hop Hm) as Hrange.
  rewrite !testbit_complement by assumption.
  destruct Hw' as [Hw' | Hw']; rewrite Hw' in Hw; injection Hw as <- <-;
    rewrite H1, H2;
    destruct (Z.testbit n (Z.of_nat v1)), (Z.testbit n (Z.of_nat v2)); auto.
Qed.

Lemma operations_keep_edge_solid_witness :
  xorb (Z.testbit 2 (Z.of_nat 0)) (Z.testbit 2 (Z.of_nat 1))
    = xorb (Z.testbit 1 (Z.of_nat 3)) (Z.testbit 1 (Z.of_nat 0))
  ∧ xorb (Z.testbit (255 - 2) (Z.of_nat 0)) (Z.testbit (255 - 2) (Z.of_nat 1))
    = xorb (Z.testbit 1 (Z.of_nat 3)) (Z.testbit 1 (Z.of_nat 0)).
Proof.
  apply (operations_keep_edge_solid ROTATE_1 1 2 3 0 3 0 0 1).
  - by_evaluation.
  - vm_compute. reflexivity.
  - vm_compute. reflexivity.
  - reflexivity.
  - reflexivity.
Defined.

(** ** The operations the loop nest enumerates *)

Lemma elem_of_range_lt (n i : nat) : i ∈ range n ↔ (i < n)%nat.
Proof. unfold range. rewrite elem_of_seq. lia. Qed.

Lemma elem_of_enumerated_ops (op : list nat) :
  op ∈ enumerated_ops ↔
  ∃ r1 r2 r3 refl, (r1 < 4)%nat ∧ (r2 < 4)%nat ∧ (r3 < 4)%nat ∧ (refl < 2)%nat
    ∧ make_op r1 r2 r3 refl = Some op.
Proof.
  unfold enumerated_ops. split.
  - intros (r1 & (r2 & (r3 & (refl & Hop & H4)%list_elem_of_bind & H3)%list_elem_of_bind
              & H2)%list_elem_of_bind & H1)%list_elem_of_bind.
    apply elem_of_range_lt in H1, H2, H3, H4.
    exists r1, r2, r3, refl. repeat (split; [assumption |]).
    destruct (make_op r1 r2 r3 refl) as [op'|]; simpl in Hop.
    + apply list_elem_of_singleton in Hop as ->. reflexivity.
    + inversion Hop.
  - intros (r1 & r2 & r3 & refl & H1 & H2 & H3 & H4 & Hop).
    apply list_elem_of_bind. exists r1. split; [| apply elem_of_range_lt, H1].
    apply list_elem_of_bind. exists r2. split; [| apply elem_of_range_lt, H2].
    apply list_elem_of_bind. exists r3. split; [| apply elem_of_range_lt, H3].
    apply list_elem_of_bind. exists refl. split; [| apply elem_of_range_lt, H4].
    rewrite Hop. simpl. left.
Qed.

Lemma symmetry_enumerated (op : list nat) : symmetry op → op ∈ enumerated_ops.
Proof.
  intros Hsym. pose proof (perm_Permutation op (proj1 Hsym)) as Hperm.
  assert (Hall : Forall (λ op, edge_preserving op → op ∈ enumerated_ops)
                   (permutations (range 8))) by by_evaluation.
  rewrite Forall_forall in Hall. apply Hall; [| apply Hsym].
  apply permutations_Permutation. symmetry. exact Hperm.
Qed.

(** X19: the 128 operations the loop nest builds are 48 different
    permutations, and they are exactly the symmetries of the cube: the
    permutations of the corners that take each edge to an edge.  So they
    contain the identity, the composition of any two of them is one of
    them, and each of them has an inverse among them. *)
Theorem enumerated_ops_are_the_symmetries :
  length enumerated_ops = 128%nat
  ∧ size (list_to_set enumerated_ops : gset (list nat)) = 48%nat
  ∧ (∀ op, symmetry op ↔
       ∃ r1 r2 r3 refl, (r1 < 4)%nat ∧ (r2 < 4)%nat ∧ (r3 < 4)%nat ∧ (refl < 2)%nat
         ∧ make_op r1 r2 r3 refl = Some op)
  ∧ symmetry identity
  ∧ (∀ op1 op2, symmetry op1 → symmetry op2 →
       ∃ c, compose [op1; op2] = Some c ∧ symmetry c)
  ∧ (∀ op, symmetry op →
       ∃ inv, symmetry inv ∧ compose [op; inv] = Some identity
         ∧ compose [inv; op] = Some identity).
Proof.
  split; [by_evaluation |]. split; [by_evaluation |]. split; [| split; [| split]].
  - intros op. rewrite <- elem_of_enumerated_ops. split; [apply symmetry_enumerated |].
    intros (r1 & r2 & r3 & refl & _ & _ & _ & _ & Hop)%elem_of_enumerated_ops.
    destruct (make_op_symmetry r1 r2 r3 refl) as (op' & Hop' & Hsym). congruence.
  - exact identity_symmetry.
  - intros op1 op2. apply compose2_symmetry.
  - intros op Hsym%symmetry_enumerated. revert op Hsym. apply Forall_forall.
    assert (H : Forall (λ op, Exists (λ inv,
                  compose [op; inv] = Some identity ∧ compose [inv; op] = Some identity)
                  enumerated_ops) enumerated_ops) by by_evaluation.
    eapply Forall_impl; [exact H |]. intros op (inv & Hin & H1 & H2)%Exists_exists.
    exists inv. split; [| auto].
    apply elem_of_enumerated_ops in Hin as (r1 & r2 & r3 & refl & _ & _ & _ & _ & Hop).
    destruct (make_op_symmetry r1 r2 r3 refl) as (op' & Hop' & Hsym). congruence.
Qed.

Lemma enumerated_ops_are_the_symmetries_witness :
  ∃ c, compose [ROTATE_3; REFLECT] = Some c ∧ symmetry c.
Proof.
  apply (proj1 (proj2 (proj2 (proj2 (proj2 enumerated_ops_are_the_symmetries))))
           ROTATE_3 REFLECT); by_evaluation.
Defined.

(** ** Where the entries of the table come from *)

(** A property of the state that every iteration keeps holds when the loop
    ends. *)
Lemma for_each_invariant {A S} (Inv : S → Prop) (P : A → Prop)
    (l : list A) (body : A → S → option S) :
  (∀ x s s', P x → Inv s → body x s = Some s' → Inv s') →
  Forall P l → ∀ s s', Inv s → for_each l body s = Some s' → Inv s'.
Proof.
  intros Hbody Hl. induction Hl as [| x l Hx _ IH]; intros s s' Hs; simpl.
  - intros [= <-]. exact Hs.
  - destruct (body x s) as [s1|] eqn:Hb; cbn [mbind option_bind]; [| discriminate].
    apply IH. exact (Hbody x s s1 Hx Hs Hb).
Qed.

Lemma Forall_range_lt (n : nat) : Forall (λ i, (i < n)%nat) (range n).
Proof. apply Forall_forall. intros i. apply elem_of_range_lt. Qed.

Lemma closure_pass_derived (allowed : bool → Prop) (invert : bool)
    (tbl tbl' : gmap Z (list (list nat))) :
  allowed invert →
  map_Forall (λ k v, ∃ b, allowed b ∧ derived_entry b k v) tbl →
  closure_pass invert tbl = Some tbl' →
  map_Forall (λ k v, ∃ b, allowed b ∧ derived_entry b k v) tbl'.
Proof.
  intros Hallowed. unfold closure_pass. revert tbl tbl'.
  apply (for_each_invariant _ (λ r1, (r1 < 4)%nat)); [| apply Forall_range_lt].
  intros r1 tbl tbl' H1. revert tbl tbl'.
  apply (for_each_invariant _ (λ r2, (r2 < 4)%nat)); [| apply Forall_range_lt].
  intros r2 tbl tbl' H2. revert tbl tbl'.
  apply (for_each_invariant _ (λ r3, (r3 < 4)%nat)); [| apply Forall_range_lt].
  intros r3 tbl tbl' H3. revert tbl tbl'.
  apply (for_each_invariant _ (λ refl, (refl < 2)%nat)); [| apply Forall_range_lt].
  intros refl tbl tbl' H4 Hinv. unfold closure_body.
  destruct (make_op r1 r2 r3 refl) as [op|] eqn:Hop; cbn [mbind option_bind];
    [| discriminate].
  revert tbl tbl' Hinv.
  apply (for_each_invariant _ (λ entry, entry ∈ BASE_CASES));
    [| apply Forall_forall; auto].
  intros [bits faces] tbl tbl' Hentry Hinv. unfold insert_case.
  destruct (bits_apply op bits) as [new_bits|] eqn:Hbits; cbn [mbind option_bind];
    [| discriminate].
  destruct (tbl !! _) as [old|] eqn:Hold; [intros [= <-]; exact Hinv |].
  destruct (faces_apply op faces _) as [new_faces|] eqn:Hfaces; cbn [mbind option_bind];
    [| discriminate].
  intros [= <-]. apply map_Forall_insert; [exact Hold |]. split; [| exact Hinv].
  exists invert. split; [exact Hallowed |].
  exists r1, r2, r3, refl, op, bits, faces, new_bits. auto 10.
Qed.

Lemma non_inverted_table_Some : closure_pass false ∅ = Some non_inverted_table.
Proof.
  unfold non_inverted_table.
  assert (H : is_Some (closure_pass false ∅)) by by_evaluation.
  destruct H as [tbl ->]. reflexivity.
Qed.

(** Every key that a non-inverted operation can reach is in the dict after
    the non-inverted pass. *)
Lemma non_inverted_table_covers (key : Z) (value : list (list nat)) :
  derived_entry false key value → is_Some (non_inverted_table !! key).
Proof.
  intros (r1 & r2 & r3 & refl & op & bits & faces & new_bits
          & (H1 & H2 & H3 & H4) & Hentry & Hop & Hbits & -> & _).
  assert (Hall : Forall (λ r1, Forall (λ r2, Forall (λ r3, Forall (λ refl,
            Forall (λ entry : Z * list (list nat),
              is_Some (op ← make_op r1 r2 r3 refl; new_bits ← bits_apply op entry.1;
                       non_inverted_table !! new_bits))
            BASE_CASES) (range 2)) (range 4)) (range 4)) (range 4)) by by_evaluation.
  pose proof (forall_ops _ Hall r1 r2 r3 refl H1 H2 H3 H4) as Hr.
  rewrite Forall_forall in Hr. specialize (Hr _ Hentry). simpl in Hr.
  rewrite Hop in Hr. cbn [mbind option_bind] in Hr. rewrite Hbits in Hr. exact Hr.
Qed.

(** X20: every entry of the finished table is what the loop nest computes
    from some entry of [BASE_CASES] with some operation of the
    enumeration; and inversion comes last: if some non-inverted operation
    takes some entry of [BASE_CASES] to a bit-pattern, then the entry of the
    table for this bit-pattern is computed by a non-inverted operation. *)
Theorem entries_are_derived (p : Z) (faces : list (list nat)) :
  cases_get p = Some faces →
  (derived_entry false p faces ∨ derived_entry true p faces)
  ∧ ((∃ faces', derived_entry false p faces') → derived_entry false p faces).
Proof.
  intros Hp. rewrite cases_get_case_table in Hp.
  pose proof cases_case_table as Hc. unfold cases in Hc.
  rewrite build_cases_passes, non_inverted_table_Some in Hc.
  cbn [mbind option_bind] in Hc.
  assert (H1 : map_Forall (λ k v, ∃ b, b = false ∧ derived_entry b k v) non_inverted_table).
  { apply (closure_pass_derived (λ b, b = false) false ∅);
      [reflexivity | apply map_Forall_empty | apply non_inverted_table_Some]. }
  assert (H2 : map_Forall (λ k v, ∃ b : bool, True ∧ derived_entry b k v) case_table).
  { apply (closure_pass_derived (λ _, True) true non_inverted_table); [exact I | | exact Hc].
    intros k v Hk. destruct (H1 k v Hk) as (b & _ & Hb). eauto. }
  split.
  - destruct (H2 p faces Hp) as ([|] & _ & Hd); auto.
  - intros [faces' Hd]. destruct (non_inverted_table_covers p faces' Hd) as [v Hv].
    pose proof (closure_pass_keeps _ _ _ _ _ Hv Hc) as Hfinal.
    assert (v = faces) as -> by congruence.
    destruct (H1 p faces Hv) as (b & -> & Hb). exact Hb.
Qed.

Lemma entries_are_derived_witness :
  (derived_entry false 2 [[1; 0; 9]]%nat ∨ derived_entry true 2 [[1; 0; 9]]%nat)
  ∧ ((∃ faces', derived_entry false 2 faces') → derived_entry false 2 [[1; 0; 9]]%nat).
Proof. apply (entries_are_derived 2). vm_compute. reflexivity. Defined.

(** ** The geometry behind [test2] *)

(** The squared distance does not depend on the order of the two
    positions. *)
Lemma length_sq_sym (pos1 pos2 : list Z) : length_sq pos1 pos2 = length_sq pos2 pos1.
Proof.
  unfold length_sq. f_equal. revert pos2.
  induction pos1 as [| x pos1 IH]; intros [| y pos2]; simpl; try reflexivity.
  rewrite IH. f_equal. lia.
Qed.



(** ** What the validators check *)

(** The boolean test finds what the geometric test states. *)
Lemma on_boundary_b_complete (pair : gset nat) :
  on_boundary pair → on_boundary_b pair = true.
Proof.
  intros (edge1 & edge2 & m1 & m2 & -> & Hne & Hm1 & Hm2 & Hl).
  assert (Hperm : elements ({[edge1; edge2]} : gset nat) ≡ₚ [edge1; edge2]).
  { rewrite elements_disj_union by (apply disjoint_singleton_l, not_elem_of_singleton, Hne).
    rewrite !elements_singleton. reflexivity. }
  unfold on_boundary_b.
  destruct (elements _) as [| a [| b [| c rest]]] eqn:Hel;
    try (apply Permutation_length in Hperm; discriminate).
  assert (Hab : (a = edge1 ∧ b = edge2) ∨ (a = edge2 ∧ b = edge1)).
  { assert (Ha : a ∈ [edge1; edge2]) by (rewrite <- Hperm; left).
    assert (Hb : b ∈ [edge1; edge2]) by (rewrite <- Hperm; right; left).
    assert (Hnd : NoDup [a; b]).
    { rewrite Hperm. apply NoDup_cons. split; [| apply NoDup_singleton].
      rewrite list_elem_of_singleton. exact Hne. }
    apply NoDup_cons in Hnd as [Hnotin _].
    rewrite !elem_of_cons, elem_of_nil in Ha, Hb.
    rewrite elem_of_cons, elem_of_nil in Hnotin.
    destruct Ha as [-> | [-> | []]], Hb as [-> | [-> | []]]; tauto. }
  destruct Hab as [[-> ->] | [-> ->]]; rewrite Hm1, Hm2.
  - apply bool_decide_eq_true_2, Hl.
  - rewrite length_sq_sym. apply bool_decide_eq_true_2, Hl.
Qed.

(** X22: the body of [test2] runs through for a bit-pattern exactly when the
    table has an entry for it, the three sides of each of its faces can be
    formed, and every side that does not occur exactly twice among them
    joins two different cube edges whose doubled midpoints are at squared
    distance 2 or 4. *)
Theorem test2_bits_checks (p : Z) :
  test2_bits p = Some () ↔
  ∃ faces pairs, cases_get p = Some faces ∧ edge_pairs faces = Some pairs
    ∧ ∀ pair, pair ∈ pairs → occurrences pair pairs ≠ 2%nat → on_boundary pair.
Proof.
  rewrite test2_bits_Some. split.
  - intros (faces & pairs & Hf & Hp & Hall). exists faces, pairs.
    split; [exact Hf |]. split; [exact Hp |].
    intros pair Hin Hocc. destruct (Hall pair Hin) as [? | Hb]; [contradiction |].
    apply on_boundary_b_sound, Hb.
  - intros (faces & pairs & Hf & Hp & Hall). exists faces, pairs.
    split; [exact Hf |]. split; [exact Hp |].
    intros pair Hin. destruct (decide (occurrences pair pairs = 2%nat)); [auto |].
    right. apply on_boundary_b_complete, Hall; assumption.
Qed.

(** X23: the body of [test1] runs through for a bit-pattern exactly when the
    table has an entry for it and every edge index in the entry is one of
    the twelve edges, with exactly one end whose bit is set in the
    pattern. *)
Theorem test1_bits_checks (p : Z) :
  test1_bits p = Some () ↔
  ∃ faces, cases_get p = Some faces
    ∧ ∀ face edge, face ∈ faces → edge ∈ face →
        ∃ v1 v2, EDGES !! edge = Some (v1, v2)
          ∧ xorb (Z.testbit p (Z.of_nat v1)) (Z.testbit p (Z.of_nat v2)) = true.
Proof.
  rewrite test1_bits_Some. split.
  - intros (faces & Hf & Hall). exists faces. split; [exact Hf |].
    intros face edge Hface Hedge.
    destruct (Hall face edge Hface Hedge) as ([v1 v2] & He & Hs).
    exists v1, v2. split; [exact He |].
    destruct (EDGES_ends_lt _ _ _ He). apply solid_ends_1; assumption.
  - intros (faces & Hf & Hall). exists faces. split; [exact Hf |].
    intros face edge Hface Hedge.
    destruct (Hall face edge Hface Hedge) as (v1 & v2 & He & Hs).
    exists (v1, v2). split; [exact He |].
    destruct (EDGES_ends_lt _ _ _ He). apply solid_ends_1; assumption.
Qed.
